(** * Photo Equalizer: the image enhancement pipeline

    A shallow embedding of [backend/utils/image_processing.py]:
    [calculate_perceptual_metrics], [generate_explainable_summary],
    [apply_accessibility_filters] and [process_image], and of the endpoints
    of [backend/main.py] that call it and serve what it wrote.

    Numbers are modelled bit for bit.  NumPy's [float32] arrays and Python's
    [float] (binary64) are IEEE 754 values of the Standard Library's
    [SpecFloat], every operation rounded to nearest even.  8-bit channels are
    integers with the wrap-around of [astype(np.uint8)] written out.  The
    file system that [cv2.imread] and [cv2.imwrite] touch is a finite map
    from paths to rasters, threaded through a small state and exception
    monad together with the list of stages that ran. *)

From Stdlib Require Import ZArith Lia List Bool Ascii String.
From Stdlib Require Import Floats.SpecFloat.
From Stdlib Require Import Numbers.DecimalString.
From stdpp Require Import base option gmap strings.

Local Open Scope Z_scope.

(** ** IEEE 754 layer *)

(** Python's [float] and [np.float64]. *)
Module F64.
Definition prec : Z := 53.
Definition emax : Z := 1024.
Definition add := SFadd prec emax.
Definition sub := SFsub prec emax.
Definition mul := SFmul prec emax.
Definition div := SFdiv prec emax.
Definition of_Z (z : Z) : spec_float := binary_normalize prec emax z 0 false.
(** The literal [n/d] as the parser reads it: the double nearest to it. *)
Definition lit (n d : Z) : spec_float := div (of_Z n) (of_Z d).
End F64.

(** The element type of [img.astype(np.float32)]. *)
Module F32.
Definition prec : Z := 24.
Definition emax : Z := 128.
Definition add := SFadd prec emax.
Definition sub := SFsub prec emax.
Definition mul := SFmul prec emax.
Definition div := SFdiv prec emax.
Definition of_Z (z : Z) : spec_float := binary_normalize prec emax z 0 false.
(** A Python scalar meeting a [float32] array is converted to [float32]
    (NumPy's weak scalar promotion): rounded to nearest, out of range
    becomes an infinity. *)
Definition of_f64 (x : spec_float) : spec_float :=
  match x with
  | S754_finite s m e => binary_round prec emax s m e
  | _ => x
  end.
End F32.

(** Comparisons are the same at every precision. *)
Definition is_nan (x : spec_float) : bool :=
  match x with S754_nan => true | _ => false end.

Definition is_finite (x : spec_float) : bool :=
  match x with S754_zero _ | S754_finite _ _ _ => true | _ => false end.

(** Python's [x != y] on floats: true as soon as one side is NaN. *)
Definition py_ne (x y : spec_float) : bool := negb (SFeqb x y).
(** Python's [x > y] and [x < y]. *)
Definition py_gt (x y : spec_float) : bool := SFltb y x.
Definition py_lt (x y : spec_float) : bool := SFltb x y.
(** Python's [max(a, b)]: [b] when [b > a], else [a]. *)
Definition py_max (a b : spec_float) : spec_float := if py_gt b a then b else a.

(** Rounding toward zero of a finite value, the integer part a C cast
    keeps. *)
Definition trunc (x : spec_float) : Z :=
  match x with
  | S754_finite s m e =>
      let a := match e with
               | Zneg p => Z.shiftr (Zpos m) (Zpos p)
               | _ => Z.shiftl (Zpos m) e
               end in
      if s then - a else a
  | _ => 0
  end.

(** [astype(np.uint8)] on a [float32]: the C conversion, which keeps the low
    byte of the truncated integer.  C leaves NaN, infinities and values
    outside the integer range undefined; the usual hardware result has a zero
    low byte, and so has [trunc] there. *)
Definition astype_uint8 (x : spec_float) : Z := trunc x mod 256.

(** [np.clip(x, lo, hi)]: NaN goes through, otherwise [min(max(x, lo), hi)]. *)
Definition np_clip (lo hi x : spec_float) : spec_float :=
  if is_nan x then x
  else
    let y := if py_gt x lo then x else lo in
    if py_lt y hi then y else hi.

Definition f32_0 : spec_float := F32.of_Z 0.
Definition f32_1 : spec_float := F32.of_Z 1.
Definition f32_255 : spec_float := F32.of_Z 255.

(** [img.astype(np.float32) / 255.0] and [(img_float * 255).astype(np.uint8)]
    on one channel. *)
Definition normalize (c : Z) : spec_float := F32.div (F32.of_Z c) f32_255.
Definition denormalize (v : spec_float) : Z := astype_uint8 (F32.mul v f32_255).


(** [np.mod(x, y)] on [float32] ([%] on arrays): C's [fmod], which is exact,
    then moved to the sign of the divisor as Python's [%] does. *)
Definition c_fmod (x y : spec_float) : spec_float :=
  match x, y with
  | S754_nan, _ | _, S754_nan => S754_nan
  | S754_infinity _, _ => S754_nan
  | _, S754_zero _ => S754_nan
  | _, S754_infinity _ => x
  | S754_zero _, _ => x
  | S754_finite sx mx ex, S754_finite _ my ey =>
      let ez := Z.min ex ey in
      let a := Zpos (fst (shl_align mx ex ez)) in
      let b := Zpos (fst (shl_align my ey ez)) in
      binary_normalize F32.prec F32.emax (cond_Zopp sx (a mod b)) ez sx
  end.

Definition is_zero (x : spec_float) : bool :=
  match x with S754_zero _ => true | _ => false end.

Definition sign_bit (x : spec_float) : bool :=
  match x with
  | S754_zero s | S754_infinity s | S754_finite s _ _ => s
  | S754_nan => false
  end.

Definition np_mod (x y : spec_float) : spec_float :=
  let r := c_fmod x y in
  if is_zero y then r
  else if is_zero r then S754_zero (sign_bit y)
  else if negb (Bool.eqb (py_lt y f32_0) (py_lt r f32_0)) then F32.add r y
  else r.

(** ** Rasters *)

(** A pixel of a 3-channel array, by channel index: blue, green, red for a
    BGR image; hue, saturation, value for HSV; L, a, b for LAB. *)
Record px (A : Type) : Type := Px { c0 : A; c1 : A; c2 : A }.
Arguments Px {A} _ _ _.
Arguments c0 {A} _.
Arguments c1 {A} _.
Arguments c2 {A} _.

(** Rows of pixels. *)
Definition image (A : Type) : Type := list (list (px A)).
(** A single-channel array, such as the grayscale plane. *)
Definition plane (A : Type) : Type := list (list A).

Definition px_map {A B} (f : A -> B) (p : px A) : px B :=
  Px (f (c0 p)) (f (c1 p)) (f (c2 p)).

(** An operation applied to every pixel, as [cv2.cvtColor] and NumPy's
    element-wise arithmetic do. *)
Definition img_map {A B} (f : px A -> px B) (img : image A) : image B :=
  map (map f) img.

Definition plane_of {A B} (f : px A -> B) (img : image A) : plane B :=
  map (map f) img.

(** What [cv2.imread] hands out: every channel an 8-bit value. *)
Definition valid_channel (c : Z) : Prop := 0 <= c <= 255.
Definition valid_pixel (p : px Z) : Prop :=
  valid_channel (c0 p) /\ valid_channel (c1 p) /\ valid_channel (c2 p).
Definition valid_image (img : image Z) : Prop :=
  Forall (Forall valid_pixel) img.

(** ** What OpenCV, NumPy and the C library provide

    The colour conversions work pixel by pixel on 8-bit data; CLAHE and the
    Laplacian look at neighbourhoods; the reductions fix their own order of
    summation; [powf] and [pow] are the C library's.  None of them is code of
    the repository: the pipeline is stated over any implementation. *)
Class Externals : Type := {
  BGR2GRAY : px Z -> Z;
  BGR2HSV : px Z -> px Z;
  HSV2BGR : px Z -> px Z;
  BGR2LAB : px Z -> px Z;
  LAB2BGR : px Z -> px Z;
  (** [cv2.createCLAHE(clipLimit=3.0, tileGridSize=(8,8)).apply] *)
  CLAHE_apply : plane Z -> plane Z;
  (** [cv2.Laplacian(gray, cv2.CV_64F).var()] *)
  Laplacian_var : plane Z -> spec_float;
  (** [np.std] of an 8-bit plane, a double *)
  np_std : plane Z -> spec_float;
  (** [np.std] and [np.mean] of the 256 histogram bins, both [float32] *)
  hist_std : list Z -> spec_float;
  hist_mean : list Z -> spec_float;
  (** [np.power] on [float32], the C library's [powf] *)
  np_power : spec_float -> spec_float -> spec_float;
  (** [pow(2.0, e)] of the C library where the result is neither exact nor
      out of range *)
  libm_pow2 : spec_float -> spec_float
}.

(** The contracts of the library that the proofs below rely on, each stated
    where it is used. *)

(** 8-bit HSV: hue is stored halved, in 0..179; saturation and value fill
    the byte. *)
Definition hsv_pixel (p : px Z) : Prop :=
  0 <= c0 p < 180 /\ valid_channel (c1 p) /\ valid_channel (c2 p).
Definition hsv_contract {E : Externals} : Prop :=
  forall p, valid_pixel p -> hsv_pixel (BGR2HSV p).

(** A mantissa of at most 24 bits, as every [float32] has. *)
Definition is_f32 (v : spec_float) : bool :=
  match v with
  | S754_finite _ m _ => Z.leb (Zpos (digits2_pos m)) F32.prec
  | _ => true
  end.

(** A [float32] between 0 and 1, the ends included. *)
Definition in_unit (v : spec_float) : bool :=
  SFleb f32_0 v && SFleb v f32_1 && is_f32 v.

(** [powf] keeps the unit interval for an exponent that is not negative. *)
Definition power_contract {E : Externals} : Prop :=
  forall v g, in_unit v = true -> SFleb f32_0 g = true ->
              in_unit (np_power v g) = true.

(** ** Effects: the file system, exceptions, and the stages that ran *)

Inductive exn : Type := OverflowError | ZeroDivisionError.

Inductive outcome (A : Type) : Type :=
| Returned (a : A)
| Raised (e : exn).
Arguments Returned {A} _.
Arguments Raised {A} _.

(** One entry per stage of [process_image] that executes, in order. *)
Inductive event : Type :=
| EvMetrics
| EvBrightness
| EvContrast
| EvExposure
| EvGamma (gamma : spec_float)
| EvSaturationHue
| EvFilter (kind : string)
| EvImwrite (path : string).

(** The files that decode to an image, and the trace so far.  A path that
    is absent is a file [cv2.imread] cannot decode. *)
Record world : Type := World {
  files : gmap string (image Z);
  trace : list event
}.

Definition M (A : Type) : Type := world -> outcome A * world.

#[global] Instance M_ret : MRet M := fun A a w => (Returned a, w).
#[global] Instance M_bind : MBind M := fun A B k m w =>
  match m w with
  | (Returned a, w') => k a w'
  | (Raised e, w') => (Raised e, w')
  end.

Definition raise {A} (e : exn) : M A := fun w => (Raised e, w).
Definition tick (ev : event) : M unit :=
  fun w => (Returned tt, World (files w) (trace w ++ [ev])).
Definition imread (path : string) : M (option (image Z)) :=
  fun w => (Returned (files w !! path), w).
Definition imwrite (path : string) (img : image Z) : M unit :=
  fun w => (Returned tt,
            World (<[path := img]> (files w)) (trace w ++ [EvImwrite path])).

(** ** Python arithmetic on [float] *)

Definition f64_0 : spec_float := F64.of_Z 0.
Definition f64_1 : spec_float := F64.of_Z 1.

(** [a / b]: a zero divisor raises, everything else follows IEEE 754. *)
Definition py_div (a b : spec_float) : M spec_float :=
  if is_zero b then raise ZeroDivisionError else mret (F64.div a b).

(** A finite double that holds an integer. *)
Definition is_integer (x : spec_float) : bool :=
  match x with
  | S754_zero _ => true
  | S754_finite _ m (Zneg p) => Z.eqb (Z.land (Zpos m) (Z.ones (Zpos p))) 0
  | S754_finite _ _ _ => true
  | _ => false
  end.

Section WithExternals.
Context {E : Externals}.

(** The C library's [pow(2.0, e)] for a finite [e]: it overflows to
    infinity from 1024 on, is exact at every integer below (rounded in the
    subnormal range, zero under it), and is the library's approximation
    elsewhere. *)
Definition c_pow2 (e : spec_float) : spec_float :=
  if SFleb (F64.of_Z 1024) e then S754_infinity false
  else if is_integer e then SFldexp F64.prec F64.emax f64_1 (trunc e)
  else libm_pow2 e.

(** [2 ** e]: the special values are answered first; a finite [e] goes to
    the C library, and a result that overflowed raises. *)
Definition py_pow2 (e : spec_float) : M spec_float :=
  match e with
  | S754_nan => mret S754_nan
  | S754_infinity false => mret (S754_infinity false)
  | S754_infinity true => mret (S754_zero false)
  | S754_zero _ => mret f64_1
  | S754_finite _ _ _ =>
      let r := c_pow2 e in
      match r with
      | S754_infinity _ => raise OverflowError
      | _ => mret r
      end
  end.
End WithExternals.

(** ** Formatting: [f"{x:.1f}"] and [f"{x:.0f}"]

    Python prints the exact binary value, rounded half to even at the last
    digit kept. *)

Definition round_half_even (n d : Z) : Z :=
  let q := n / d in
  match 2 * (n mod d) ?= d with
  | Lt => q
  | Gt => q + 1
  | Eq => if Z.even q then q else q + 1
  end.

Definition digits_of (n : Z) : string :=
  NilZero.string_of_uint (N.to_uint (Z.to_N n)).

Fixpoint zeros (n : nat) : string :=
  match n with O => EmptyString | S k => String "0" (zeros k) end.

(** [n] counts units of [10^-d]. *)
Definition fixed_point (d : nat) (n : Z) : string :=
  let scale := 10 ^ Z.of_nat d in
  let frac := digits_of (n mod scale) in
  match d with
  | O => digits_of n
  | _ => digits_of (n / scale) ++ "." ++
         zeros (d - String.length frac) ++ frac
  end%string.

Definition format_f (d : nat) (x : spec_float) : string :=
  match x with
  | S754_nan => "nan"
  | S754_infinity s => if s then "-inf" else "inf"
  | S754_zero s => (if s then "-" else "") ++ fixed_point d 0
  | S754_finite s m e =>
      let scale := 10 ^ Z.of_nat d in
      let n := match e with
               | Zneg p => round_half_even (Zpos m * scale) (2 ^ Zpos p)
               | _ => Zpos m * 2 ^ e * scale
               end in
      (if s then "-" else "") ++ fixed_point d n
  end%string.

(** ** Perceptual metrics and the explainable summary *)

Module Metrics.
(** The dictionary [calculate_perceptual_metrics] returns: always these
    four keys. *)
Record t : Type := Make {
  sharpness : spec_float;
  brightness_balance : spec_float;
  contrast : spec_float;
  saturation : spec_float
}.
End Metrics.

(** [d.get(key, 0)] *)
Definition dict_get (d : gmap string spec_float) (key : string) : spec_float :=
  default f64_0 (d !! key).

(** The separator of [" • ".join]: a space, the bullet U+2022 in UTF-8, a
    space. *)
Definition bullet : string :=
  String " " (String (ascii_of_nat 226) (String (ascii_of_nat 128)
    (String (ascii_of_nat 162) (String " " EmptyString)))).

(** The list [explanations] as it stands before the join. *)
Definition explanations
    (original_metrics processed_metrics : Metrics.t)
    (adjustments : gmap string spec_float) : list string :=
  let explanations : list string := [] in
  let sharpness_change :=
    F64.sub (Metrics.sharpness processed_metrics) (Metrics.sharpness original_metrics) in
  let contrast_change :=
    F64.sub (Metrics.contrast processed_metrics) (Metrics.contrast original_metrics) in
  let saturation_change :=
    F64.sub (Metrics.saturation processed_metrics) (Metrics.saturation original_metrics) in
  let explanations :=
    if py_gt (SFabs sharpness_change) (F64.of_Z 50) then
      if py_gt sharpness_change f64_0
      then explanations ++ ["Enhanced image sharpness for clearer details"%string]
      else explanations ++ ["Softened image sharpness for smoother appearance"%string]
    else explanations in
  let explanations :=
    if py_gt (SFabs contrast_change) (F64.of_Z 10) then
      if py_gt contrast_change f64_0
      then explanations ++ ["Increased contrast to make features more distinct"%string]
      else explanations ++ ["Reduced contrast for a more balanced look"%string]
    else explanations in
  let explanations :=
    if py_gt (SFabs saturation_change) (F64.of_Z 20) then
      if py_gt saturation_change f64_0
      then explanations ++ ["Boosted color saturation for more vibrant colors"%string]
      else explanations ++ ["Desaturated colors for a more muted, elegant tone"%string]
    else explanations in
  let explanations :=
    if py_ne (dict_get adjustments "brightness") f64_0 then
      (* the key is there: [get] gave a value that is not the default *)
      let brightness_val := dict_get adjustments "brightness" in
      if py_gt brightness_val f64_0
      then explanations ++
           ["Brightened the image by " ++ format_f 1 brightness_val ++ " levels"]%string
      else explanations ++
           ["Darkened the image by " ++ format_f 1 (SFabs brightness_val) ++ " levels"]%string
    else explanations in
  let explanations :=
    if py_ne (dict_get adjustments "hue") f64_0 then
      let hue_val := dict_get adjustments "hue" in
      explanations ++ ["Shifted color hue by " ++ format_f 0 hue_val ++ " degrees"]%string
    else explanations in
  let explanations :=
    if py_ne (dict_get adjustments "exposure") f64_0 then
      let exposure_val := dict_get adjustments "exposure" in
      if py_gt exposure_val f64_0
      then explanations ++
           ["Increased exposure by " ++ format_f 1 exposure_val ++ " stops"]%string
      else explanations ++
           ["Decreased exposure by " ++ format_f 1 (SFabs exposure_val) ++ " stops"]%string
    else explanations in
  let explanations :=
    match explanations with
    | [] => explanations ++
            ["Applied subtle enhancements to improve overall image quality"%string]
    | _ => explanations
    end in
  explanations.

Definition generate_explainable_summary
    (original_metrics processed_metrics : Metrics.t)
    (adjustments : gmap string spec_float) : string :=
  String.concat bullet (explanations original_metrics processed_metrics adjustments).

(** [float(x)] of a [np.float32]: the same value as a double. *)
Definition f32_to_f64 (x : spec_float) : spec_float :=
  match x with
  | S754_finite s m e => binary_round F64.prec F64.emax s m e
  | _ => x
  end.

(** [np.mean] of an 8-bit plane: summed in double precision (exactly, the
    sum of bytes staying far below 2^53), then divided by the count. *)
Definition np_mean (a : plane Z) : spec_float :=
  let flat := concat a in
  F64.div (F64.of_Z (fold_right Z.add 0 flat)) (F64.of_Z (Z.of_nat (length flat))).

(** [cv2.calcHist([gray], [0], None, [256], [0, 256])]: how often each of the
    256 levels occurs. *)
Definition calcHist (gray : plane Z) : list Z :=
  map (fun k => Z.of_nat (count_occ Z.eq_dec (concat gray) (Z.of_nat k))) (seq 0 256).

(** [cv2.merge([l, a, b])] *)
Definition merge (l a b : plane Z) : image Z :=
  zip_with (fun rl rab => zip_with (fun x yz => Px x (fst yz) (snd yz)) rl rab)
           l (zip_with zip a b).

(** Truth of [accessibility_filter] in a condition: [None] and the empty
    string are false. *)
Definition truthy (s : option string) : bool :=
  match s with
  | Some EmptyString | None => false
  | Some _ => true
  end.

Definition filter_names : gmap string string :=
  <["high_contrast" := "High Contrast"]>
  (<["colorblind_protanopia" := "Protanopia Simulation"]>
  (<["colorblind_deuteranopia" := "Deuteranopia Simulation"]>
  (<["colorblind_tritanopia" := "Tritanopia Simulation"]> ∅)))%string.

(** The dictionary [adjustments] that [process_image] hands to the summary. *)
Definition adjustments_of (brightness contrast saturation hue exposure : spec_float)
    : gmap string spec_float :=
  <["brightness" := brightness]>
  (<["contrast" := contrast]>
  (<["saturation" := saturation]>
  (<["hue" := hue]>
  (<["exposure" := exposure]> ∅))))%string.

Definition fallback_clause : string :=
  "Applied subtle enhancements to improve overall image quality".

(** The scalar [0.5] of the colour-blindness simulations, as a [float32]. *)
Definition f32_half : spec_float := F32.of_f64 (F64.lit 5 10).

(** The four kinds [apply_accessibility_filters] knows. *)
Definition defined_kinds : list string :=
  ["high_contrast"; "colorblind_protanopia"; "colorblind_deuteranopia";
   "colorblind_tritanopia"]%string.

(** ** The summary as the specification words it

    Six rules in a fixed order, each giving no clause or one; the fallback
    when none gave any.  [explanations] is compared with this below. *)

Inductive rule : Type :=
| Sharpness | Contrast | Saturation | Brightness | Hue | Exposure.

Definition rule_order : list rule :=
  [Sharpness; Contrast; Saturation; Brightness; Hue; Exposure].

Section SummaryRules.
Variables (original processed : Metrics.t) (adjustments : gmap string spec_float).

(** What a rule looks at: a metric after minus before, or an adjustment. *)
Definition delta (r : rule) : spec_float :=
  match r with
  | Sharpness => F64.sub (Metrics.sharpness processed) (Metrics.sharpness original)
  | Contrast => F64.sub (Metrics.contrast processed) (Metrics.contrast original)
  | Saturation => F64.sub (Metrics.saturation processed) (Metrics.saturation original)
  | Brightness => dict_get adjustments "brightness"
  | Hue => dict_get adjustments "hue"
  | Exposure => dict_get adjustments "exposure"
  end.

(** Above the threshold in absolute value, or not zero. *)
Definition fires (r : rule) : bool :=
  match r with
  | Sharpness => py_gt (SFabs (delta r)) (F64.of_Z 50)
  | Contrast => py_gt (SFabs (delta r)) (F64.of_Z 10)
  | Saturation => py_gt (SFabs (delta r)) (F64.of_Z 20)
  | Brightness | Hue | Exposure => py_ne (delta r) f64_0
  end.

Definition clause (r : rule) : string :=
  let x := delta r in
  let up := py_gt x f64_0 in
  match r with
  | Sharpness =>
      if up then "Enhanced image sharpness for clearer details"
      else "Softened image sharpness for smoother appearance"
  | Contrast =>
      if up then "Increased contrast to make features more distinct"
      else "Reduced contrast for a more balanced look"
  | Saturation =>
      if up then "Boosted color saturation for more vibrant colors"
      else "Desaturated colors for a more muted, elegant tone"
  | Brightness =>
      if up then "Brightened the image by " ++ format_f 1 x ++ " levels"
      else "Darkened the image by " ++ format_f 1 (SFabs x) ++ " levels"
  | Hue => "Shifted color hue by " ++ format_f 0 x ++ " degrees"
  | Exposure =>
      if up then "Increased exposure by " ++ format_f 1 x ++ " stops"
      else "Decreased exposure by " ++ format_f 1 (SFabs x) ++ " stops"
  end%string.

Definition clauses_by_rule : list string :=
  match List.filter fires rule_order with
  | [] => [fallback_clause]
  | fired => map clause fired
  end.
End SummaryRules.

Section Pipeline.
Context {E : Externals}.

Definition calculate_perceptual_metrics (img : image Z) : Metrics.t :=
  let gray := plane_of BGR2GRAY img in
  let laplacian_var := Laplacian_var gray in
  let hist := calcHist gray in
  let brightness_balance := F32.div (hist_std hist) (hist_mean hist) in
  let contrast := np_std gray in
  let hsv := img_map BGR2HSV img in
  let saturation_mean := np_mean (plane_of c1 hsv) in
  Metrics.Make laplacian_var (f32_to_f64 brightness_balance) contrast saturation_mean.

(** [filter_type] is what the caller passes: a string, or [None]. *)
Definition apply_accessibility_filters
    (img : image Z) (filter_type : option string) : image Z :=
  let half := f32_half in
  if bool_decide (filter_type = Some "high_contrast"%string) then
    let lab := img_map BGR2LAB img in
    let l := plane_of c0 lab in
    let a := plane_of c1 lab in
    let b := plane_of c2 lab in
    let l := CLAHE_apply l in
    let lab := merge l a b in
    img_map LAB2BGR lab
  else if bool_decide (filter_type = Some "colorblind_protanopia"%string) then
    let img_float := img_map (px_map normalize) img in
    let img_float :=
      img_map (fun p => Px (c0 p) (c1 p) (F32.mul (c1 p) half)) img_float in
    img_map (px_map denormalize) img_float
  else if bool_decide (filter_type = Some "colorblind_deuteranopia"%string) then
    let img_float := img_map (px_map normalize) img in
    let img_float :=
      img_map (fun p => Px (c0 p) (F32.mul (c2 p) half) (c2 p)) img_float in
    img_map (px_map denormalize) img_float
  else if bool_decide (filter_type = Some "colorblind_tritanopia"%string) then
    let img_float := img_map (px_map normalize) img in
    let img_float :=
      img_map (fun p => Px (F32.mul (c1 p) half) (c1 p) (c2 p)) img_float in
    img_map (px_map denormalize) img_float
  else img.

(** *** The blocks of [process_image] *)

(** "Auto-enhancement based on perceptual metrics": the requested
    brightness, contrast and saturation, and what the stages use. *)
Definition auto_enhancement (auto_enhance : bool) (img : image Z)
    (original_metrics : Metrics.t) (brightness contrast saturation : spec_float)
    : spec_float * spec_float * spec_float :=
  if auto_enhance then
    let gray := plane_of BGR2GRAY img in
    let mean_brightness := np_mean gray in
    let brightness :=
      if py_lt mean_brightness (F64.of_Z 80) then F64.add brightness (F64.lit 2 10)
      else if py_gt mean_brightness (F64.of_Z 180) then F64.sub brightness (F64.lit 2 10)
      else brightness in
    let contrast :=
      if py_lt (Metrics.contrast original_metrics) (F64.of_Z 30)
      then py_max contrast (F64.lit 12 10) else contrast in
    let saturation :=
      if py_lt (Metrics.saturation original_metrics) (F64.of_Z 100)
      then py_max saturation (F64.lit 11 10) else saturation in
    (brightness, contrast, saturation)
  else (brightness, contrast, saturation).

(** The exponent of the gamma stage: [1.0 / contrast if contrast > 0 else
    1.0]. *)
Definition gamma_of (contrast : spec_float) : M spec_float :=
  if py_gt contrast f64_0 then py_div f64_1 contrast else mret f64_1.

(** "Apply brightness adjustment" *)
Definition brightness_adjustment (img_float : image spec_float)
    (brightness : spec_float) : M (image spec_float) :=
  if py_ne brightness f64_0 then
    tick EvBrightness;;
    mret (img_map (px_map (fun v =>
            np_clip f32_0 f32_1 (F32.add v (F32.of_f64 brightness)))) img_float)
  else mret img_float.

(** "Apply contrast adjustment" *)
Definition contrast_adjustment (img_float : image spec_float)
    (contrast : spec_float) : M (image spec_float) :=
  if py_ne contrast f64_1 then
    tick EvContrast;;
    mret (img_map (px_map (fun v =>
            np_clip f32_0 f32_1 (F32.mul v (F32.of_f64 contrast)))) img_float)
  else mret img_float.

(** "Apply exposure adjustment" *)
Definition exposure_adjustment (img_float : image spec_float)
    (exposure : spec_float) : M (image spec_float) :=
  if py_ne exposure f64_0 then
    tick EvExposure;;
    factor ← py_pow2 exposure;
    mret (img_map (px_map (fun v =>
            np_clip f32_0 f32_1 (F32.mul v (F32.of_f64 factor)))) img_float)
  else mret img_float.

(** "Apply gamma correction for better tone mapping" *)
Definition gamma_correction (img_float : image spec_float)
    (contrast : spec_float) : M (image spec_float) :=
  if py_ne contrast f64_1 then
    gamma ← gamma_of contrast;
    tick (EvGamma gamma);;
    mret (img_map (px_map (fun v => np_power v (F32.of_f64 gamma))) img_float)
  else mret img_float.

(** The four in the order of the source, each on the result of the one
    before. *)
Definition tonal_adjustments (img_float : image spec_float)
    (brightness contrast exposure : spec_float) : M (image spec_float) :=
  img_float ← brightness_adjustment img_float brightness;
  img_float ← contrast_adjustment img_float contrast;
  img_float ← exposure_adjustment img_float exposure;
  gamma_correction img_float contrast.

(** "Apply saturation and hue adjustments" on the 8-bit image. *)
Definition saturation_hue_adjustments (img_processed : image Z)
    (saturation hue : spec_float) : M (image Z) :=
  if py_ne saturation f64_1 || py_ne hue f64_0 then
    tick EvSaturationHue;;
    let hsv := img_map (px_map F32.of_Z) (img_map BGR2HSV img_processed) in
    let hsv :=
      img_map (fun p =>
        Px (c0 p)
           (np_clip f32_0 f32_255 (F32.mul (c1 p) (F32.of_f64 saturation)))
           (c2 p)) hsv in
    let hsv :=
      if py_ne hue f64_0 then
        img_map (fun p =>
          Px (np_mod (F32.add (c0 p) (F32.of_f64 hue)) (F32.of_Z 180))
             (c1 p) (c2 p)) hsv
      else hsv in
    mret (img_map HSV2BGR (img_map (px_map astype_uint8) hsv))
  else mret img_processed.

Definition process_image (input_path output_path : string)
    (brightness contrast saturation hue exposure : spec_float)
    (accessibility_filter : option string) (auto_enhance : bool) : M string :=
  img ← imread input_path;
  match img with
  | None => mret "Error: Could not load image"%string
  | Some img =>
      tick EvMetrics;;
      let original_metrics := calculate_perceptual_metrics img in
      let img_float := img_map (px_map normalize) img in
      let '(brightness, contrast, saturation) :=
        auto_enhancement auto_enhance img original_metrics
                         brightness contrast saturation in
      img_float ← tonal_adjustments img_float brightness contrast exposure;
      let img_processed := img_map (px_map denormalize) img_float in
      img_processed ← saturation_hue_adjustments img_processed saturation hue;
      img_processed ←
        (if truthy accessibility_filter then
           tick (EvFilter (default EmptyString accessibility_filter));;
           mret (apply_accessibility_filters img_processed accessibility_filter)
         else mret img_processed);
      tick EvMetrics;;
      let processed_metrics := calculate_perceptual_metrics img_processed in
      imwrite output_path img_processed;;
      let adjustments := adjustments_of brightness contrast saturation hue exposure in
      let summary :=
        generate_explainable_summary original_metrics processed_metrics adjustments in
      let summary :=
        if truthy accessibility_filter then
          let kind := default EmptyString accessibility_filter in
          (summary ++ bullet ++ "Applied " ++
           default kind (filter_names !! kind) ++ " accessibility filter")%string
        else summary in
      mret summary
  end.
End Pipeline.

(** ** A reference implementation of the libraries

    It follows the formulas of OpenCV's documentation for 8-bit images and
    computes the statistics over exact integers.  Its only use is to run the
    pipeline on concrete inputs; every general statement below is about an
    arbitrary [Externals]. *)
Module Reference.

(** [n / d] rounded to the nearest integer, for [d > 0]. *)
Definition div_round (n d : Z) : Z := (2 * n + d) / (2 * d).

(** Y = 0.299 R + 0.587 G + 0.114 B in 14-bit fixed point. *)
Definition gray (p : px Z) : Z :=
  Z.shiftr (c2 p * 4899 + c1 p * 9617 + c0 p * 1868 + 8192) 14.

(** V = max, S = 255 (V - min) / V, H = half the angle in degrees. *)
Definition bgr2hsv (p : px Z) : px Z :=
  let b := c0 p in let g := c1 p in let r := c2 p in
  let v := Z.max b (Z.max g r) in
  let d := v - Z.min b (Z.min g r) in
  let s := if Z.eqb v 0 then 0 else Z.min 255 (Z.max 0 (div_round (255 * d) v)) in
  let h :=
    if Z.eqb d 0 then 0
    else if Z.eqb v r then div_round (30 * (g - b)) d
    else if Z.eqb v g then div_round (60 * d + 30 * (b - r)) d
    else div_round (120 * d + 30 * (r - g)) d in
  Px (h mod 180) s (Z.min 255 (Z.max 0 v)).

(** The six sectors of the hue circle, each 30 half-degrees wide. *)
Definition hsv2bgr (p : px Z) : px Z :=
  let h := c0 p mod 180 in let s := c1 p in let v := c2 p in
  let f := h mod 30 in
  let lo := div_round (v * (255 - s)) 255 in
  let dn := div_round (v * (255 * 30 - s * f)) (255 * 30) in
  let up := div_round (v * (255 * 30 - s * (30 - f))) (255 * 30) in
  match h / 30 with
  | 0 => Px lo up v
  | 1 => Px lo v dn
  | 2 => Px up v lo
  | 3 => Px v dn lo
  | 4 => Px v lo up
  | _ => Px dn lo v
  end.

(** The 3x3 Laplacian [0 1 0; 1 -4 1; 0 1 0] with the border mirrored
    around the edge pixel. *)
Definition mirror (n i : Z) : Z :=
  if Z.ltb i 0 then Z.min (n - 1) (- i)
  else if Z.leb n i then Z.max 0 (2 * n - 2 - i)
  else i.

Definition at_ (g : plane Z) (i j : Z) : Z :=
  let row := nth (Z.to_nat (mirror (Z.of_nat (length g)) i)) g [] in
  nth (Z.to_nat (mirror (Z.of_nat (length row)) j)) row 0.

Definition laplacian (g : plane Z) : plane Z :=
  imap (fun i row =>
    imap (fun j x =>
      let i := Z.of_nat i in let j := Z.of_nat j in
      at_ g (i - 1) j + at_ g (i + 1) j + at_ g i (j - 1) + at_ g i (j + 1) - 4 * x)
      row) g.

(** Population variance and standard deviation of integers, the last
    division and the root rounded once. *)
Definition variance (l : list Z) : spec_float :=
  let n := Z.of_nat (length l) in
  let s1 := fold_right Z.add 0 l in
  let s2 := fold_right Z.add 0 (map (fun x => x * x) l) in
  F64.div (F64.of_Z (n * s2 - s1 * s1)) (F64.of_Z (n * n)).

Definition std (l : list Z) : spec_float := SFsqrt F64.prec F64.emax (variance l).

Definition mean32 (l : list Z) : spec_float :=
  F32.div (F32.of_Z (fold_right Z.add 0 l)) (F32.of_Z (Z.of_nat (length l))).

(** [powf] on the unit interval with an exponent that is not negative,
    from square roots and products, each correctly rounded and kept in
    the interval: exact where the result is representable in one step,
    a few units in the last place off otherwise.  The pipeline asks for
    nothing else; NaN is the answer there. *)
Definition mul01 (a b : spec_float) : spec_float :=
  np_clip f32_0 f32_1 (F32.mul a b).
Definition sqrt01 (a : spec_float) : spec_float :=
  np_clip f32_0 f32_1 (SFsqrt F32.prec F32.emax a).

Fixpoint pow_pos (v : spec_float) (n : positive) : spec_float :=
  match n with
  | xH => v
  | xO n' => let t := pow_pos v n' in mul01 t t
  | xI n' => let t := pow_pos v n' in mul01 v (mul01 t t)
  end.

(** [v] to the power [0.b1 b2 ... bk] in binary, the bits of [r] read from
    the last one. *)
Fixpoint pow_frac (v : spec_float) (r : positive) (acc : spec_float) : spec_float :=
  match r with
  | xH => sqrt01 (mul01 v acc)
  | xO r' => pow_frac v r' (sqrt01 acc)
  | xI r' => pow_frac v r' (sqrt01 (mul01 v acc))
  end.

Definition powf (v g : spec_float) : spec_float :=
  if is_zero g then f32_1
  else if negb (in_unit v) then S754_nan
  else
    match g with
    | S754_infinity false => if SFeqb v f32_1 then f32_1 else f32_0
    | S754_finite false m (Zneg p) =>
        let n := Z.shiftr (Zpos m) (Zpos p) in
        let r := Z.land (Zpos m) (Z.ones (Zpos p)) in
        let whole := match n with Zpos n => pow_pos v n | _ => f32_1 end in
        let frac :=
          match r with
          | Zpos r =>
              Nat.iter (Pos.to_nat p - Pos.to_nat (digits2_pos r)) sqrt01
                       (pow_frac v r f32_1)
          | _ => f32_1
          end in
        mul01 whole frac
    | S754_finite false m e => pow_pos v (Z.to_pos (Zpos m * 2 ^ e))
    | _ => S754_nan
    end.

(** 2 to a finite power that is not an integer, the same way in double
    precision: the integer part moves the exponent. *)
Definition sqrt64 := SFsqrt F64.prec F64.emax.
Definition f64_2 : spec_float := F64.of_Z 2.

Fixpoint pow2_frac (r : positive) (acc : spec_float) : spec_float :=
  match r with
  | xH => sqrt64 (F64.mul f64_2 acc)
  | xO r' => pow2_frac r' (sqrt64 acc)
  | xI r' => pow2_frac r' (sqrt64 (F64.mul f64_2 acc))
  end.

Definition pow2 (e : spec_float) : spec_float :=
  match e with
  | S754_finite s m (Zneg p) =>
      let z := cond_Zopp s (Zpos m) in
      let n := Z.shiftr z (Zpos p) in
      match Z.land z (Z.ones (Zpos p)) with
      | Zpos r =>
          SFldexp F64.prec F64.emax
            (Nat.iter (Pos.to_nat p - Pos.to_nat (digits2_pos r)) sqrt64
                      (pow2_frac r f64_1)) n
      | _ => SFldexp F64.prec F64.emax f64_1 n
      end
  | _ => S754_nan
  end.

(** The LAB conversions and CLAHE stand as the identity, which keeps the
    dimensions of a plane as CLAHE does. *)
Definition opencv : Externals := {|
  BGR2GRAY := gray;
  BGR2HSV := bgr2hsv;
  HSV2BGR := hsv2bgr;
  BGR2LAB := fun p => p;
  LAB2BGR := fun p => p;
  CLAHE_apply := fun l => l;
  Laplacian_var := fun g => variance (concat (laplacian g));
  np_std := fun g => std (concat g);
  hist_std := fun h => F32.of_f64 (std h);
  hist_mean := mean32;
  np_power := powf;
  libm_pow2 := pow2
|}.

(** A world with one decodable file, and nothing run yet. *)
Definition world_with (path : string) (img : image Z) : world :=
  World {[ path := img ]} [].

(** [process_image] on that world, written to ["out.jpg"]. *)
Definition run (img : image Z)
    (brightness contrast saturation hue exposure : spec_float)
    (accessibility_filter : option string) (auto_enhance : bool)
    : outcome string * world :=
  process_image (E := opencv) "in.jpg" "out.jpg"
                brightness contrast saturation hue exposure
                accessibility_filter auto_enhance
                (world_with "in.jpg" img).

(** A 2x2 image: a near red, a dark tone, a mid gray and white. *)
Definition sample : image Z :=
  [[Px 0 1 255; Px 10 20 30]; [Px 128 128 128; Px 255 255 255]].

(** One black pixel. *)
Definition black : image Z := [[Px 0 0 0]].
End Reference.


(** ** The stages seen from outside

    What each block of [process_image] does to one channel, which events it
    leaves in the trace, and what [2 ** exposure] gives, as pure functions:
    the properties below are stated with them, and each is first proved to
    be what the block computes. *)

Definition stage_events (ran : bool) (ev : event) : list event :=
  if ran then [ev] else [].

(** [1.0 / contrast if contrast > 0 else 1.0] *)
Definition gamma_value (contrast : spec_float) : spec_float :=
  if py_gt contrast f64_0 then F64.div f64_1 contrast else f64_1.

Definition brightness_channel (brightness v : spec_float) : spec_float :=
  if py_ne brightness f64_0
  then np_clip f32_0 f32_1 (F32.add v (F32.of_f64 brightness)) else v.

Definition contrast_channel (contrast v : spec_float) : spec_float :=
  if py_ne contrast f64_1
  then np_clip f32_0 f32_1 (F32.mul v (F32.of_f64 contrast)) else v.

Definition exposure_channel (exposure factor v : spec_float) : spec_float :=
  if py_ne exposure f64_0
  then np_clip f32_0 f32_1 (F32.mul v (F32.of_f64 factor)) else v.

(** Saturation and hue on one HSV pixel held as [float32]. *)
Definition saturation_hue_pixel (saturation hue : spec_float) (p : px spec_float)
    : px spec_float :=
  Px (if py_ne hue f64_0
      then np_mod (F32.add (c0 p) (F32.of_f64 hue)) (F32.of_Z 180) else c0 p)
     (np_clip f32_0 f32_255 (F32.mul (c1 p) (F32.of_f64 saturation)))
     (c2 p).

Section StagesOutside.
Context {E : Externals}.

Definition gamma_channel (contrast v : spec_float) : spec_float :=
  if py_ne contrast f64_1 then np_power v (F32.of_f64 (gamma_value contrast)) else v.

(** The normalized channel just before the conversion back to 8 bits. *)
Definition tonal_channel (brightness contrast exposure factor v : spec_float)
    : spec_float :=
  gamma_channel contrast
    (exposure_channel exposure factor
       (contrast_channel contrast (brightness_channel brightness v))).

(** The outcome of [2 ** exposure], which does not touch the world. *)
Definition pow2_outcome (e : spec_float) : outcome spec_float :=
  match e with
  | S754_nan => Returned S754_nan
  | S754_infinity false => Returned (S754_infinity false)
  | S754_infinity true => Returned (S754_zero false)
  | S754_zero _ => Returned f64_1
  | S754_finite _ _ _ =>
      match c_pow2 e with
      | S754_infinity _ => Raised OverflowError
      | r => Returned r
      end
  end.

(** The exposure stage as a whole: skipped, failed, or run with a factor. *)
Definition exposure_outcome (exposure : spec_float) : outcome spec_float :=
  if py_ne exposure f64_0 then pow2_outcome exposure else Returned f64_1.

Definition tonal_events (brightness contrast exposure : spec_float) : list event :=
  stage_events (py_ne brightness f64_0) EvBrightness ++
  stage_events (py_ne contrast f64_1) EvContrast ++
  stage_events (py_ne exposure f64_0) EvExposure ++
  stage_events (py_ne contrast f64_1) (EvGamma (gamma_value contrast)).

Definition saturation_hue_runs (saturation hue : spec_float) : bool :=
  py_ne saturation f64_1 || py_ne hue f64_0.

Definition saturation_hue_image (saturation hue : spec_float) (img : image Z)
    : image Z :=
  if saturation_hue_runs saturation hue then
    img_map (fun p => HSV2BGR (px_map astype_uint8
               (saturation_hue_pixel saturation hue (px_map F32.of_Z (BGR2HSV p))))) img
  else img.

Definition filter_image (accessibility_filter : option string) (img : image Z)
    : image Z :=
  if truthy accessibility_filter
  then apply_accessibility_filters img accessibility_filter else img.

(** The 8-bit image handed to the saturation and hue block. *)
Definition tonal_image (img : image Z)
    (brightness contrast exposure factor : spec_float) : image Z :=
  img_map (px_map (fun c =>
    denormalize (tonal_channel brightness contrast exposure factor (normalize c)))) img.

(** The image [process_image] writes when the exposure factor is [factor]. *)
Definition output_image (img : image Z)
    (brightness contrast saturation hue exposure factor : spec_float)
    (accessibility_filter : option string) : image Z :=
  filter_image accessibility_filter
    (saturation_hue_image saturation hue
       (tonal_image img brightness contrast exposure factor)).

(** The events of a run that returns. *)
Definition run_events (output_path : string)
    (brightness contrast saturation hue exposure : spec_float)
    (accessibility_filter : option string) : list event :=
  [EvMetrics] ++ tonal_events brightness contrast exposure ++
  stage_events (saturation_hue_runs saturation hue) EvSaturationHue ++
  stage_events (truthy accessibility_filter)
               (EvFilter (default EmptyString accessibility_filter)) ++
  [EvMetrics; EvImwrite output_path].

(** The text [process_image] returns for an input and the image it wrote. *)
Definition run_summary (img out : image Z)
    (brightness contrast saturation hue exposure : spec_float)
    (accessibility_filter : option string) : string :=
  let summary :=
    generate_explainable_summary
      (calculate_perceptual_metrics img) (calculate_perceptual_metrics out)
      (adjustments_of brightness contrast saturation hue exposure) in
  if truthy accessibility_filter then
    let kind := default EmptyString accessibility_filter in
    (summary ++ bullet ++ "Applied " ++
     default kind (filter_names !! kind) ++ " accessibility filter")%string
  else summary.
End StagesOutside.

Definition f64_180 : spec_float := F64.of_Z 180.

(** ** Notions of the proofs *)

(** Bit-for-bit equality of floats, to check finitely many cases. *)
Definition sf_same (x y : spec_float) : bool :=
  match x, y with
  | S754_zero s, S754_zero s' => Bool.eqb s s'
  | S754_infinity s, S754_infinity s' => Bool.eqb s s'
  | S754_nan, S754_nan => true
  | S754_finite s m e, S754_finite s' m' e' =>
      Bool.eqb s s' && Pos.eqb m m' && Z.eqb e e'
  | _, _ => false
  end.

(** The record of a shift of [k] places of the integer [N]: the quotient,
    and both flags down when nothing was lost. *)
Definition shifted (N k : Z) (mrs : shr_record) : Prop :=
  shr_m mrs = N / 2 ^ k /\
  (N mod 2 ^ k = 0 -> shr_r mrs = false /\ shr_s mrs = false).

(** The canonical exponent of single precision. *)
Definition fexp32 (d : Z) : Z := Z.max (d - 24) (-149).

(** A zero, a number or an infinity of the sign [s]. *)
Definition has_sign (s : bool) (x : spec_float) : Prop :=
  match x with
  | S754_zero s' | S754_infinity s' | S754_finite s' _ _ => s' = s
  | S754_nan => False
  end.

(** A [float32] that is not NaN. *)
Definition f32_number (x : spec_float) : Prop := is_nan x = false /\ is_f32 x = true.

(** Clamping, on one normalized channel: in the unit interval, converted
    without wrap-around, to a byte. *)
Definition unit_channel (v : spec_float) : Prop :=
  in_unit v = true /\
  denormalize v = trunc (F32.mul v f32_255) /\
  0 <= denormalize v <= 255.

Definition all_channels {A} (P : A -> Prop) (img : image A) : Prop :=
  Forall (Forall (fun p => P (c0 p) /\ P (c1 p) /\ P (c2 p))) img.


(** A pixel as a number in base 256, and back: used to count pixels. *)
Definition pixel_index (p : px Z) : Z := c0 p * 65536 + c1 p * 256 + c2 p.

Definition pixel_at (i : Z) : px Z := Px (i / 65536) ((i / 256) mod 256) (i mod 256).


(** ** Notions of the further properties *)

(** The dimensions of an array of rows: the length of each row. *)
Definition shape {A} (a : list (list A)) : list nat := map length a.

(** The colour-blindness simulations. *)
Definition colorblind_kinds : list string :=
  ["colorblind_protanopia"; "colorblind_deuteranopia"; "colorblind_tritanopia"]%string.

(** The contract of CLAHE used below: the plane it returns has the
    dimensions of the plane it is given. *)
Definition clahe_keeps_shape {E : Externals} : Prop :=
  forall l, shape (CLAHE_apply l) = shape l.

(** The keys of [adjustments] that [generate_explainable_summary] reads. *)
Definition summary_keys : list string := ["brightness"; "hue"; "exposure"]%string.

(** An HSV pixel with its hue moved by [n] half-degrees around the circle
    of 180. *)
Definition shift_hue (n : Z) (q : px Z) : px Z :=
  Px ((c0 q + n) mod 180) (c1 q) (c2 q).

(** A byte taken up or down by [n] stops: times [2^n], rounded down, and
    no more than 255. *)
Definition stops (n c : Z) : Z := Z.min 255 (Z.shiftl c n).

(** [2 ** n] for a whole [n] below 1024: the exact power of two, rounded
    where it is subnormal. *)
Definition whole_power (n : Z) : spec_float :=
  if n =? 0 then f64_1 else SFldexp F64.prec F64.emax f64_1 n.

(** What [c_pow2] looks at when the exposure is the whole number [n]. *)
Definition whole_power_check (n : Z) : bool :=
  (n =? 0) ||
  match F64.of_Z n with
  | S754_finite _ _ _ as e =>
      py_ne e f64_0 && negb (SFleb (F64.of_Z 1024) e) && is_integer e && (trunc e =? n) &&
      match SFldexp F64.prec F64.emax f64_1 n with
      | S754_infinity _ => false
      | _ => true
      end
  | _ => false
  end.

(** [k] tenths written with one decimal, for [k >= 0]. *)
Definition tenths (k : Z) : string :=
  (digits_of (k / 10) ++ "." ++ digits_of (k mod 10))%string.

(** A whole number as it is written, with its sign. *)
Definition whole (n : Z) : string :=
  ((if Z.ltb n 0 then "-" else "") ++ digits_of (Z.abs n))%string.

(** What the manual rules see of [k] tenths, positive and negative. *)
Definition tenths_check (k : Z) : bool :=
  let x := F64.lit k 10 in
  py_ne x f64_0 && py_gt x f64_0 && String.eqb (format_f 1 x) (tenths k) &&
  py_ne (SFopp x) f64_0 && negb (py_gt (SFopp x) f64_0) &&
  String.eqb (format_f 1 (SFabs (SFopp x))) (tenths k).

Definition whole_check (n : Z) : bool :=
  (n =? 0) || String.eqb (format_f 0 (F64.of_Z n)) (whole n).

(** ** The web endpoints of [backend/main.py] *)

Definition UPLOAD_DIR : string := "uploads".
Definition OUTPUT_DIR : string := "processed".

(** [s.endswith("/")] *)
Fixpoint ends_with_slash (s : string) : bool :=
  match s with
  | EmptyString => false
  | String c EmptyString => Ascii.eqb c "/"
  | String _ rest => ends_with_slash rest
  end.

(** ["/" in s] *)
Fixpoint has_slash (s : string) : bool :=
  match s with
  | EmptyString => false
  | String c rest => Ascii.eqb c "/" || has_slash rest
  end.

(** [os.path.join(a, b)] on POSIX: a second part that starts at the root
    stands alone, otherwise the parts are put together with one separator. *)
Definition path_join (a b : string) : string :=
  if String.prefix "/" b then b
  else if String.eqb a "" || ends_with_slash a then a ++ b
  else a ++ "/" ++ b.

(** What an endpoint answers: a file of the disk to stream, or a JSON
    object. *)
Inductive response : Type :=
| FileResponse (path : string) (media_type filename : option string)
| JSON (body : list (string * string)).

(** [GET /download/{file_id}].  [path_exists] is [os.path.exists] on the
    disk as it is at the request. *)
Definition download_image (path_exists : string -> bool) (file_id : string) : response :=
  let processed_path := path_join OUTPUT_DIR (file_id ++ "_processed.jpg") in
  if path_exists processed_path then
    FileResponse processed_path (Some "image/jpeg"%string)
                 (Some ("enhanced_image_" ++ file_id ++ ".jpg")%string)
  else JSON [("error", "File not found")]%string.

(** [GET /{file_path:path}] *)
Definition get_file (path_exists : string -> bool) (file_path : string) : response :=
  if String.prefix "uploads/" file_path || String.prefix "processed/" file_path then
    if path_exists file_path then FileResponse file_path None None
    else JSON [("error", "File not found")]%string
  else JSON [("error", "Invalid file path")]%string.

(** [open(input_path, "wb")] and [shutil.copyfileobj]: the upload replaces
    what the path held.  [upload] is what [cv2.imread] makes of the uploaded
    bytes: an image, or nothing when they do not decode.  The directory is
    made when the module loads; a file name with a directory part, for which
    [open] fails, is outside this model. *)
Definition save_upload (path : string) (upload : option (image Z)) : M unit :=
  fun w =>
    (Returned tt,
     World (match upload with
            | Some img => <[path := img]> (files w)
            | None => delete path (files w)
            end) (trace w)).

Section Endpoint.
Context {E : Externals}.

(** [POST /process].  [file_id] is the string of the fresh UUID; a form
    field that the request leaves out takes the default of the signature. *)
Definition process_image_endpoint (file_id filename : string) (upload : option (image Z))
    (brightness contrast saturation hue exposure : option spec_float)
    (accessibility_filter : option string) (auto_enhance : option bool) : M response :=
  let input_path := path_join UPLOAD_DIR (file_id ++ "_" ++ filename) in
  let output_path := path_join OUTPUT_DIR (file_id ++ "_processed.jpg") in
  save_upload input_path upload;;
  summary ← process_image input_path output_path
              (default f64_0 brightness) (default f64_1 contrast)
              (default f64_1 saturation) (default f64_0 hue) (default f64_0 exposure)
              accessibility_filter (default false auto_enhance);
  mret (JSON [("processed_url", "http://localhost:8000/" ++ output_path);
              ("summary", summary);
              ("file_id", file_id)]%string).
End Endpoint.

(** The disk agrees with a world: every file the world holds exists. *)
Definition holds_files (path_exists : string -> bool) (w : world) : Prop :=
  forall p, is_Some (files w !! p) -> path_exists p = true.


(** * Properties *)

(** ** Finite checks and maps over rasters *)

Lemma forall_range (P : Z -> bool) (n : nat) :
  forallb P (map Z.of_nat (seq 0 n)) = true ->
  forall c, 0 <= c < Z.of_nat n -> P c = true.
Proof.
  intros Hall c Hc.
  rewrite forallb_forall in Hall. apply Hall.
  apply in_map_iff. exists (Z.to_nat c). split; [lia|].
  apply in_seq. lia.
Qed.

(** Normalizing a byte and converting back loses nothing: checked on all
    256 bytes. *)
Lemma denormalize_normalize c : valid_channel c -> denormalize (normalize c) = c.
Proof.
  intros Hc. apply Z.eqb_eq.
  apply (forall_range (fun c => denormalize (normalize c) =? c) 256); [now vm_compute|].
  unfold valid_channel in Hc. lia.
Qed.

Lemma img_map_map {A B C} (f : px A -> px B) (g : px B -> px C) img :
  img_map g (img_map f img) = img_map (fun p => g (f p)) img.
Proof.
  unfold img_map. rewrite map_map. apply map_ext. intros row. apply map_map.
Qed.

Lemma img_map_ext_on {B} (P : px Z -> Prop) (f g : px Z -> px B) img :
  Forall (Forall P) img -> (forall p, P p -> f p = g p) -> img_map f img = img_map g img.
Proof.
  intros Hv Hfg. unfold img_map.
  induction Hv as [|row rows Hrow _ IH]; [reflexivity|].
  simpl. f_equal; [|exact IH].
  induction Hrow as [|p ps Hp _ IHp]; [reflexivity|].
  simpl. f_equal; auto.
Qed.

Lemma img_map_id {A} (img : image A) : img_map (fun p => p) img = img.
Proof.
  unfold img_map. rewrite <- (map_id img) at 2.
  apply map_ext. intros. apply map_id.
Qed.

Lemma roundtrip_image img :
  valid_image img ->
  img_map (px_map denormalize) (img_map (px_map normalize) img) = img.
Proof.
  intros Hv. rewrite img_map_map.
  rewrite <- (img_map_id img) at 2.
  apply (img_map_ext_on valid_pixel); [exact Hv|].
  intros [b g r] (Hb & Hg & Hr); simpl in *.
  unfold px_map; simpl. now rewrite !denormalize_normalize.
Qed.

Lemma sample_valid : valid_image Reference.sample.
Proof. repeat constructor; unfold valid_channel; simpl; lia. Qed.

(** ** The summary when nothing changed *)

(** A metric minus itself is zero, or NaN when it is not finite: never
    above a positive threshold. *)
Lemma sub_self_small x t :
  match t with S754_finite false _ _ => True | _ => False end ->
  py_gt (SFabs (F64.sub x x)) t = false.
Proof.
  destruct t as [| | |[] m e]; try contradiction. intros _.
  destruct x as [[]|[]| |s m' e']; try reflexivity.
  unfold F64.sub, SFsub.
  rewrite Z.sub_diag. reflexivity.
Qed.

Lemma get_brightness b c s h e : dict_get (adjustments_of b c s h e) "brightness" = b.
Proof. unfold dict_get, adjustments_of. now simplify_map_eq. Qed.

Lemma get_hue b c s h e : dict_get (adjustments_of b c s h e) "hue" = h.
Proof. unfold dict_get, adjustments_of. now simplify_map_eq. Qed.

Lemma get_exposure b c s h e : dict_get (adjustments_of b c s h e) "exposure" = e.
Proof. unfold dict_get, adjustments_of. now simplify_map_eq. Qed.

Lemma summary_unchanged m c s :
  generate_explainable_summary m m (adjustments_of f64_0 c s f64_0 f64_0) = fallback_clause.
Proof.
  unfold generate_explainable_summary, explanations.
  rewrite !sub_self_small by exact I.
  rewrite get_brightness, get_hue, get_exposure.
  reflexivity.
Qed.

Section IdentityConfiguration.
Context {E : Externals}.

Lemma tonal_identity img w :
  tonal_adjustments img f64_0 f64_1 f64_0 w = (Returned img, w).
Proof. reflexivity. Qed.

Lemma saturation_hue_identity img w :
  saturation_hue_adjustments img f64_1 f64_0 w = (Returned img, w).
Proof. reflexivity. Qed.

(** C1.  With brightness 0, contrast 1.0, saturation 1.0, hue 0, exposure 0,
  no accessibility filter and auto-enhance off, [process_image] on a valid
  decoded image writes an image equal to its input, byte for byte, and
  returns exactly the generic fallback clause.  Only the two metric passes
  and the write run. *)
Theorem identity_configuration_is_noop input output img w flt :
valid_image img -> files w !! input = Some img -> truthy flt = false ->
process_image input output f64_0 f64_1 f64_1 f64_0 f64_0 flt false w =
  (Returned fallback_clause,
   World (<[output := img]> (files w))
         (trace w ++ [EvMetrics; EvMetrics; EvImwrite output])).
Proof.
intros Hv Hin Hf.
unfold process_image, mbind, M_bind, imread. rewrite Hin.
unfold auto_enhancement, tick at 1.
rewrite tonal_identity, saturation_hue_identity, Hf.
rewrite roundtrip_image by exact Hv.
unfold mret, M_ret, tick, imwrite. cbn [files trace].
rewrite summary_unchanged.
now rewrite <- !app_assoc.
Qed.
End IdentityConfiguration.

Lemma identity_configuration_is_noop_witness :
  Reference.run Reference.sample f64_0 f64_1 f64_1 f64_0 f64_0 None false =
    (Returned fallback_clause,
     World (<["out.jpg"%string := Reference.sample]> {[ "in.jpg"%string := Reference.sample ]})
           [EvMetrics; EvMetrics; EvImwrite "out.jpg"]).
Proof.
  apply (identity_configuration_is_noop (E := Reference.opencv)
           "in.jpg" "out.jpg" Reference.sample
           (Reference.world_with "in.jpg" Reference.sample) None).
  - exact sample_valid.
  - reflexivity.
  - reflexivity.
Defined.


(** ** Decode failure *)

Section DecodeFailure.
Context {E : Externals}.

(** C10.  When the input file does not decode, [process_image] returns the
    failure message and stops there: the world is left as it was, so no
    metric pass and no stage ran and no file was written. *)
Theorem decode_failure_stops input output b c s h e flt auto w :
  files w !! input = None ->
  process_image input output b c s h e flt auto w =
    (Returned "Error: Could not load image"%string, w).
Proof.
  intros Hin. unfold process_image, mbind, M_bind, imread. now rewrite Hin.
Qed.
End DecodeFailure.

Lemma decode_failure_stops_witness :
  process_image (E := Reference.opencv) "missing.jpg" "out.jpg"
    (F64.lit 2 10) (F64.lit 12 10) (F64.lit 11 10) (F64.of_Z 10) (F64.lit 1 10)
    (Some "high_contrast"%string) true (World ∅ []) =
  (Returned "Error: Could not load image"%string, World ∅ []).
Proof.
  apply (decode_failure_stops (E := Reference.opencv)). reflexivity.
Defined.

(** ** Accessibility filters *)

Lemma halve_channel g :
  valid_channel g -> denormalize (F32.mul (normalize g) f32_half) = g / 2.
Proof.
  intros Hg. apply Z.eqb_eq.
  apply (forall_range
           (fun g => denormalize (F32.mul (normalize g) f32_half) =? g / 2) 256);
    [now vm_compute|].
  unfold valid_channel in Hg. lia.
Qed.

Section Filters.
Context {E : Externals}.

(** C7.  For a kind that is none of the four defined ones ([None], the
    string "none", any other string), [apply_accessibility_filters] returns
    its input image unchanged. *)
Theorem unknown_filter_is_identity img (filter_type : option string) :
  (forall kind, In kind defined_kinds -> filter_type <> Some kind) ->
  apply_accessibility_filters img filter_type = img.
Proof.
  intros Hk. unfold apply_accessibility_filters.
  rewrite !bool_decide_eq_false_2; [reflexivity| | | |];
    apply Hk; simpl; auto.
Qed.

(** C6.  The protanopia filter writes into the red channel of every pixel
    half of its green channel, the half of an odd value rounded down as the
    8-bit conversion truncates, and leaves green and blue as they are. *)
Theorem protanopia_halves_green img :
  valid_image img ->
  apply_accessibility_filters img (Some "colorblind_protanopia"%string) =
    img_map (fun p => Px (c0 p) (c1 p) (c1 p / 2)) img.
Proof.
  intros Hv. unfold apply_accessibility_filters.
  rewrite bool_decide_eq_false_2 by discriminate.
  rewrite bool_decide_eq_true_2 by reflexivity.
  rewrite !img_map_map.
  apply (img_map_ext_on valid_pixel); [exact Hv|].
  intros [b g r] (Hb & Hg & Hr); simpl in *.
  unfold px_map; simpl.
  now rewrite !denormalize_normalize, halve_channel.
Qed.
End Filters.

Lemma not_defined_kind (s : string) :
  forallb (fun k => negb (String.eqb s k)) defined_kinds = true ->
  forall kind, In kind defined_kinds -> Some s <> Some kind.
Proof.
  intros Hall kind Hin [= ->].
  rewrite forallb_forall in Hall. specialize (Hall kind Hin).
  now rewrite String.eqb_refl in Hall.
Qed.

Lemma unknown_filter_is_identity_witness :
  apply_accessibility_filters (E := Reference.opencv) Reference.sample None = Reference.sample /\
  apply_accessibility_filters (E := Reference.opencv) Reference.sample (Some "none"%string)
    = Reference.sample /\
  apply_accessibility_filters (E := Reference.opencv) Reference.sample (Some "sepia"%string)
    = Reference.sample.
Proof.
  split; [|split].
  - apply (unknown_filter_is_identity (E := Reference.opencv)). intros kind _. discriminate.
  - apply (unknown_filter_is_identity (E := Reference.opencv)).
    apply not_defined_kind. reflexivity.
  - apply (unknown_filter_is_identity (E := Reference.opencv)).
    apply not_defined_kind. reflexivity.
Defined.

(** A pure red pixel (B, G, R) = (0, 0, 255) loses its red; the sample's
    white pixel keeps half of it. *)
Lemma protanopia_halves_green_witness :
  apply_accessibility_filters (E := Reference.opencv)
    [[Px 0 0 255; Px 255 255 255]] (Some "colorblind_protanopia"%string) =
  [[Px 0 0 0; Px 255 255 127]].
Proof.
  rewrite (protanopia_halves_green (E := Reference.opencv)).
  - reflexivity.
  - repeat constructor; unfold valid_channel; simpl; lia.
Defined.

(** ** Auto-enhancement *)

Lemma below_80_not_above_180 m :
  py_lt m (F64.of_Z 80) = true -> py_gt m (F64.of_Z 180) = false.
Proof.
  unfold py_lt, py_gt, SFltb.
  change (F64.of_Z 80) with (S754_finite false 5629499534213120 (-46)).
  change (F64.of_Z 180) with (S754_finite false 6333186975989760 (-45)).
  destruct m as [[]|[]| |[] mm e]; cbn [SFcompare]; try discriminate; try reflexivity.
  destruct (Z.compare_spec e (-46)); destruct (Z.compare_spec (-45) e);
    try discriminate; try reflexivity; lia.
Qed.


Section AutoEnhance.
Context {E : Externals}.

(** C4.  With auto-enhance on, on a decoded image: a grayscale mean below 80
    adds 0.2 to the requested brightness, a mean above 180 takes 0.2 off,
    never both, and otherwise the brightness stays; a contrast metric below
    30 makes the contrast [max(requested, 1.2)], a saturation metric below
    100 makes the saturation [max(requested, 1.1)], and otherwise they stay.
    The run is the run without auto-enhance on these three values, with the
    same hue, exposure and filter; with auto-enhance off the requested values
    are used as they are. *)
Theorem auto_enhance_rules input output img w b c s h e flt :
  files w !! input = Some img ->
  let om := calculate_perceptual_metrics img in
  let mean := np_mean (plane_of BGR2GRAY img) in
  let '(b', c', s') := auto_enhancement true img om b c s in
  (py_lt mean (F64.of_Z 80) = true -> b' = F64.add b (F64.lit 2 10)) /\
  (py_gt mean (F64.of_Z 180) = true -> b' = F64.sub b (F64.lit 2 10)) /\
  (py_lt mean (F64.of_Z 80) = false -> py_gt mean (F64.of_Z 180) = false -> b' = b) /\
  py_lt mean (F64.of_Z 80) && py_gt mean (F64.of_Z 180) = false /\
  c' = (if py_lt (Metrics.contrast om) (F64.of_Z 30)
        then py_max c (F64.lit 12 10) else c) /\
  s' = (if py_lt (Metrics.saturation om) (F64.of_Z 100)
        then py_max s (F64.lit 11 10) else s) /\
  process_image input output b c s h e flt true w =
    process_image input output b' c' s' h e flt false w /\
  auto_enhancement false img om b c s = (b, c, s).
Proof.
  intros Hin om mean.
  unfold auto_enhancement at 1. fold mean. cbv beta iota.
  assert (Hrun : forall b' c' s',
             auto_enhancement true img om b c s = (b', c', s') ->
             process_image input output b c s h e flt true w =
             process_image input output b' c' s' h e flt false w).
  { intros b' c' s' Hauto.
    unfold process_image, mbind, M_bind, imread. rewrite Hin.
    fold om. rewrite Hauto. reflexivity. }
  pose proof (below_80_not_above_180 mean) as Hx.
  repeat split.
  - intros Hlt. now rewrite Hlt.
  - intros Hgt. destruct (py_lt mean (F64.of_Z 80)); [|now rewrite Hgt].
    now rewrite Hx in Hgt.
  - intros Hlt Hgt. now rewrite Hlt, Hgt.
  - destruct (py_lt mean (F64.of_Z 80)); [now rewrite Hx|reflexivity].
  - apply Hrun. unfold auto_enhancement. fold mean. reflexivity.
Qed.
End AutoEnhance.

Lemma auto_enhance_rules_witness :
  auto_enhancement (E := Reference.opencv) true Reference.black
    (calculate_perceptual_metrics (E := Reference.opencv) Reference.black) f64_0 f64_1 f64_1 =
  (F64.add f64_0 (F64.lit 2 10), F64.lit 12 10, F64.lit 11 10).
Proof.
  generalize (auto_enhance_rules (E := Reference.opencv) "in.jpg" "out.jpg" Reference.black
                (Reference.world_with "in.jpg" Reference.black)
                f64_0 f64_1 f64_1 f64_0 f64_0 None eq_refl).
  cbv zeta.
  destruct (auto_enhancement true Reference.black _ f64_0 f64_1 f64_1) as [[b' c'] s'].
  intros (Hb & _ & _ & _ & Hc & Hs & _).
  rewrite (Hb eq_refl), Hc, Hs. reflexivity.
Defined.

(** ** The explainable summary *)

Lemma clause_inj om pm adj r r' : clause om pm adj r = clause om pm adj r' -> r = r'.
Proof.
  destruct r, r'; try reflexivity; unfold clause;
    repeat match goal with |- context [if ?b then _ else _] => destruct b end;
    simpl; intros Heq; discriminate Heq.
Qed.

Lemma clause_not_fallback om pm adj r : clause om pm adj r <> fallback_clause.
Proof.
  destruct r; unfold clause;
    repeat match goal with |- context [if ?b then _ else _] => destruct b end;
    simpl; intros Heq; discriminate Heq.
Qed.

Lemma clause_nonempty om pm adj r : exists a s, clause om pm adj r = String a s.
Proof.
  destruct r; unfold clause;
    repeat match goal with |- context [if ?b then _ else _] => destruct b end;
    simpl; eauto.
Qed.

Lemma if_app {A} (s : bool) (l : list A) a b :
  (if s then l ++ [a] else l ++ [b]) = l ++ [if s then a else b].
Proof. now destruct s. Qed.

Lemma explanations_by_rule om pm adj :
  explanations om pm adj = clauses_by_rule om pm adj.
Proof.
  unfold explanations, clauses_by_rule, rule_order.
  cbn [List.filter fires delta].
  repeat match goal with
         | |- context [if ?b then _ else _] =>
             lazymatch b with
             | py_gt (SFabs _) _ => idtac
             | py_ne _ _ => idtac
             end;
             let x := fresh "b" in set (x := b) in *; clearbody x
         end.
  repeat match goal with
         | x : bool |- _ => destruct x; cbv iota
         end;
    rewrite ?if_app; reflexivity.
Qed.

Lemma clauses_by_rule_cases om pm adj :
  let fired := List.filter (fires om pm adj) rule_order in
  (fired = [] /\ clauses_by_rule om pm adj = [fallback_clause]) \/
  (fired <> [] /\ clauses_by_rule om pm adj = map (clause om pm adj) fired).
Proof.
  intros fired. unfold clauses_by_rule. fold fired.
  destruct fired; [left|right]; split; auto.
Qed.

Lemma concat_nonempty sep a s l : String.concat sep (String a s :: l) <> EmptyString.
Proof. destruct l; simpl; discriminate. Qed.

(** C8.  The summary is never empty.  It is the clauses of [explanations]
    joined by the bullet separator, and these are the clauses of the rules
    that fire, in the order sharpness, contrast, saturation, brightness, hue,
    exposure, followed by the fallback clause exactly when no rule fires.  A
    rule's clause is in the list iff the rule fires: a metric moved by more
    than 50, 10 or 20 in absolute value, or an adjustment that is not zero. *)
Theorem summary_structure om pm adj :
  let fired := List.filter (fires om pm adj) rule_order in
  let summary := generate_explainable_summary om pm adj in
  summary <> EmptyString /\
  summary = String.concat bullet (explanations om pm adj) /\
  explanations om pm adj =
    map (clause om pm adj) fired ++
    (if forallb (fun r => negb (fires om pm adj r)) rule_order
     then [fallback_clause] else []) /\
  (forall r, In (clause om pm adj r) (explanations om pm adj) <->
             fires om pm adj r = true) /\
  (In fallback_clause (explanations om pm adj) <->
   forall r, fires om pm adj r = false).
Proof.
  intros fired summary.
  assert (Hall : forall r, In r rule_order) by (intros []; simpl; tauto).
  assert (Hfired : forall r, In r fired <-> fires om pm adj r = true).
  { intros r. unfold fired. rewrite List.filter_In. specialize (Hall r). tauto. }
  pose proof (clauses_by_rule_cases om pm adj) as Hc. cbv zeta in Hc.
  fold fired in Hc. rewrite <- explanations_by_rule in Hc.
  unfold summary, generate_explainable_summary. clear summary.
  clearbody fired.
  set (none := forallb (fun r => negb (fires om pm adj r)) rule_order).
  assert (Hnone : none = true <-> fired = []).
  { unfold none. rewrite forallb_forall. split.
    - intros Hn. destruct fired as [|r l]; [reflexivity|].
      assert (Hr : fires om pm adj r = true) by (apply Hfired; now left).
      specialize (Hn r (Hall r)). rewrite Hr in Hn. discriminate.
    - intros -> r _. destruct (fires om pm adj r) eqn:Hr; [|reflexivity].
      apply Hfired in Hr. destruct Hr. }
  assert (Hexp : explanations om pm adj =
                 map (clause om pm adj) fired ++ (if none then [fallback_clause] else [])).
  { destruct Hc as [[Hf ->]|[Hf ->]].
    - rewrite (proj2 Hnone Hf), Hf. reflexivity.
    - destruct none.
      + now destruct Hf; apply Hnone.
      + now rewrite app_nil_r. }
  split; [|split; [reflexivity|split; [exact Hexp|split]]].
  - destruct Hc as [[Hf ->]|[Hf ->]].
    + apply concat_nonempty.
    + destruct fired as [|r l]; [congruence|]. simpl map.
      destruct (clause_nonempty om pm adj r) as (a & s & ->). apply concat_nonempty.
  - intros r. rewrite Hexp, in_app_iff, in_map_iff. split.
    + intros [(r' & Heq & Hin)|Hin].
      * apply clause_inj in Heq. subst r'. now apply Hfired.
      * destruct none; simpl in Hin; [|tauto].
        destruct Hin as [Hin|[]]. symmetry in Hin. now apply clause_not_fallback in Hin.
    + intros Hr. left. exists r. split; [reflexivity|now apply Hfired].
  - rewrite Hexp, in_app_iff, in_map_iff. split.
    + intros [(r' & Heq & _)|Hin].
      * now apply clause_not_fallback in Heq.
      * destruct none eqn:Hb; simpl in Hin; [|tauto].
        unfold none in Hb. rewrite forallb_forall in Hb.
        intros r. specialize (Hb r (Hall r)).
        now apply negb_true_iff in Hb.
    + intros Hn. right.
      assert (Hb : none = true).
      { apply forallb_forall. intros r _. now rewrite Hn. }
      rewrite Hb. now left.
Qed.


(** ** The blocks of [process_image], one equation each *)


Lemma world_eta w : World (files w) (trace w) = w.
Proof. now destruct w. Qed.

Lemma stage_run {A} (ran : bool) (ev : event) (f : A -> A) (x : A) w :
  (if ran then tick ev;; mret (f x) else mret x) w =
  (Returned (if ran then f x else x),
   World (files w) (trace w ++ stage_events ran ev)).
Proof.
  destruct ran; unfold mbind, M_bind, tick, mret, M_ret, stage_events; simpl.
  - reflexivity.
  - now rewrite app_nil_r, world_eta.
Qed.

Lemma img_map_if {A} (b : bool) (f : A -> A) (img : image A) :
  (if b then img_map (px_map f) img else img) =
  img_map (px_map (fun v => if b then f v else v)) img.
Proof.
  destruct b; [reflexivity|].
  unfold img_map. rewrite <- (map_id img) at 1. apply map_ext. intros row.
  rewrite <- (map_id row) at 1. apply map_ext. now intros [].
Qed.

Section Runs.
Context {E : Externals}.

Lemma py_pow2_pure e w : py_pow2 e w = (pow2_outcome e, w).
Proof.
  unfold py_pow2, pow2_outcome.
  destruct e as [|[]| |]; try reflexivity.
  cbv zeta. destruct (c_pow2 _); reflexivity.
Qed.

Lemma positive_not_zero c : py_gt c f64_0 = true -> is_zero c = false.
Proof. now destruct c as [[]| | |]. Qed.

Lemma gamma_of_pure c w : gamma_of c w = (Returned (gamma_value c), w).
Proof.
  unfold gamma_of, gamma_value, py_div.
  destruct (py_gt c f64_0) eqn:Hc; [|reflexivity].
  now rewrite positive_not_zero.
Qed.

Lemma brightness_adjustment_run img b w :
  brightness_adjustment img b w =
  (Returned (img_map (px_map (brightness_channel b)) img),
   World (files w) (trace w ++ stage_events (py_ne b f64_0) EvBrightness)).
Proof.
  unfold brightness_adjustment, brightness_channel.
  rewrite <- img_map_if. apply stage_run.
Qed.

Lemma contrast_adjustment_run img c w :
  contrast_adjustment img c w =
  (Returned (img_map (px_map (contrast_channel c)) img),
   World (files w) (trace w ++ stage_events (py_ne c f64_1) EvContrast)).
Proof.
  unfold contrast_adjustment, contrast_channel.
  rewrite <- img_map_if. apply stage_run.
Qed.

Lemma exposure_adjustment_run img e w :
  exposure_adjustment img e w =
  match exposure_outcome e with
  | Returned factor =>
      (Returned (img_map (px_map (exposure_channel e factor)) img),
       World (files w) (trace w ++ stage_events (py_ne e f64_0) EvExposure))
  | Raised x => (Raised x, World (files w) (trace w ++ [EvExposure]))
  end.
Proof.
  unfold exposure_adjustment, exposure_outcome, exposure_channel.
  destruct (py_ne e f64_0).
  - unfold mbind, M_bind, tick. rewrite py_pow2_pure.
    destruct (pow2_outcome e); reflexivity.
  - unfold mret, M_ret, stage_events. rewrite app_nil_r, world_eta.
    f_equal. f_equal. apply (img_map_if false (fun v => v)).
Qed.

Lemma gamma_correction_run img c w :
  gamma_correction img c w =
  (Returned (img_map (px_map (gamma_channel c)) img),
   World (files w)
         (trace w ++ stage_events (py_ne c f64_1) (EvGamma (gamma_value c)))).
Proof.
  unfold gamma_correction, gamma_channel.
  rewrite <- img_map_if.
  destruct (py_ne c f64_1).
  - unfold mbind, M_bind. rewrite gamma_of_pure. reflexivity.
  - unfold mret, M_ret, stage_events. now rewrite app_nil_r, world_eta.
Qed.

Lemma px_map_map {A B C} (f : A -> B) (g : B -> C) (p : px A) :
  px_map g (px_map f p) = px_map (fun v => g (f v)) p.
Proof. reflexivity. Qed.

Lemma tonal_adjustments_run img b c e w :
  tonal_adjustments img b c e w =
  match exposure_outcome e with
  | Returned factor =>
      (Returned (img_map (px_map (tonal_channel b c e factor)) img),
       World (files w) (trace w ++ tonal_events b c e))
  | Raised x =>
      (Raised x,
       World (files w)
             (trace w ++ stage_events (py_ne b f64_0) EvBrightness ++
              stage_events (py_ne c f64_1) EvContrast ++ [EvExposure]))
  end.
Proof.
  unfold tonal_adjustments, mbind, M_bind.
  rewrite brightness_adjustment_run, contrast_adjustment_run, exposure_adjustment_run.
  cbn [files trace].
  destruct (exposure_outcome e) as [factor|x].
  - rewrite gamma_correction_run. cbn [files trace].
    rewrite !img_map_map. unfold tonal_events. now rewrite <- !app_assoc.
  - now rewrite <- !app_assoc.
Qed.

Lemma saturation_hue_adjustments_run img s h w :
  saturation_hue_adjustments img s h w =
  (Returned (saturation_hue_image s h img),
   World (files w)
         (trace w ++ stage_events (saturation_hue_runs s h) EvSaturationHue)).
Proof.
  unfold saturation_hue_adjustments, saturation_hue_image, saturation_hue_runs.
  destruct (py_ne s f64_1 || py_ne h f64_0).
  - unfold mbind, M_bind, tick, mret, M_ret, stage_events. cbn [files trace].
    f_equal. f_equal. unfold saturation_hue_pixel.
    destruct (py_ne h f64_0); now rewrite !img_map_map.
  - unfold mret, M_ret, stage_events. now rewrite app_nil_r, world_eta.
Qed.

Lemma filter_run flt (img : image Z) w :
  (if truthy flt then
     tick (EvFilter (default EmptyString flt));;
     mret (apply_accessibility_filters img flt)
   else mret img) w =
  (Returned (filter_image flt img),
   World (files w)
         (trace w ++ stage_events (truthy flt) (EvFilter (default EmptyString flt)))).
Proof.
  unfold filter_image. destruct (truthy flt).
  - reflexivity.
  - unfold mret, M_ret, stage_events. now rewrite app_nil_r, world_eta.
Qed.

Lemma process_image_run input output img w b c s h e flt auto :
  files w !! input = Some img ->
  let '(b', c', s') :=
    auto_enhancement auto img (calculate_perceptual_metrics img) b c s in
  process_image input output b c s h e flt auto w =
  match exposure_outcome e with
  | Returned factor =>
      let out := output_image img b' c' s' h e factor flt in
      (Returned (run_summary img out b' c' s' h e flt),
       World (<[output := out]> (files w))
             (trace w ++ run_events output b' c' s' h e flt))
  | Raised x =>
      (Raised x,
       World (files w)
             (trace w ++ [EvMetrics] ++
              stage_events (py_ne b' f64_0) EvBrightness ++
              stage_events (py_ne c' f64_1) EvContrast ++ [EvExposure]))
  end.
Proof.
  intros Hin.
  destruct (auto_enhancement auto img (calculate_perceptual_metrics img) b c s)
    as [[b' c'] s'] eqn:Hauto.
  unfold process_image, mbind at 1, M_bind at 1, imread. rewrite Hin.
  unfold mbind at 1, M_bind at 1, tick at 1.
  rewrite Hauto.
  unfold mbind at 1, M_bind at 1. rewrite tonal_adjustments_run. cbn [files trace].
  destruct (exposure_outcome e) as [factor|x].
  - unfold mbind at 1, M_bind at 1. rewrite saturation_hue_adjustments_run.
    unfold mbind at 1, M_bind at 1. rewrite filter_run.
    unfold mbind, M_bind, tick, imwrite, mret, M_ret. cbn [files trace].
    unfold run_summary, output_image, tonal_image, run_events.
    rewrite !img_map_map. cbv zeta. f_equal. f_equal.
    rewrite <- !app_assoc. reflexivity.
  - now rewrite <- !app_assoc.
Qed.

Lemma gamma_in_run_events output b c s h e flt g :
  In (EvGamma g) (run_events output b c s h e flt) <->
  py_ne c f64_1 = true /\ g = gamma_value c.
Proof.
  unfold run_events, tonal_events, stage_events.
  destruct (py_ne b f64_0), (py_ne c f64_1), (py_ne e f64_0),
    (saturation_hue_runs s h), (truthy flt); simpl;
    split; intros Hg;
    repeat match goal with
           | H : _ \/ _ |- _ => destruct H
           | H : _ /\ _ |- _ => destruct H
           | H : EvGamma _ = EvGamma _ |- _ => injection H as <-
           end;
    subst; try discriminate; try contradiction; auto 10.
Qed.

(** C3.  The gamma stage, on any image and world, leaves the image alone
    when the contrast in force equals 1.0 and otherwise raises every channel
    to the power [1.0 / contrast] if [contrast > 0] and to the power 1.0 if
    not, without raising an exception; and a run of [process_image] that
    returns has the gamma event in its trace exactly when the contrast in
    force (after auto-enhancement) differs from 1.0, with that exponent. *)
Theorem gamma_runs_iff_contrast_differs input output img w b c s h e flt auto :
  files w !! input = Some img ->
  let '(_, c', _) :=
    auto_enhancement auto img (calculate_perceptual_metrics img) b c s in
  let gamma := if py_gt c' f64_0 then F64.div f64_1 c' else f64_1 in
  (forall img_float w0,
     gamma_correction img_float c' w0 =
       if py_ne c' f64_1
       then (Returned (img_map (px_map (fun v => np_power v (F32.of_f64 gamma))) img_float),
             World (files w0) (trace w0 ++ [EvGamma gamma]))
       else (Returned img_float, w0)) /\
  (forall summary w',
     process_image input output b c s h e flt auto w = (Returned summary, w') ->
     exists events,
       trace w' = trace w ++ events /\
       ((exists g, In (EvGamma g) events) <-> py_ne c' f64_1 = true) /\
       (forall g, In (EvGamma g) events -> g = gamma)).
Proof.
  intros Hin. pose proof (process_image_run input output img w b c s h e flt auto Hin) as Hrun.
  destruct (auto_enhancement auto img (calculate_perceptual_metrics img) b c s)
    as [[b' c'] s'].
  cbv zeta. fold (gamma_value c'). split.
  - intros img_float w0. rewrite gamma_correction_run.
    unfold gamma_channel, stage_events.
    destruct (py_ne c' f64_1).
    + reflexivity.
    + rewrite app_nil_r, world_eta. f_equal. f_equal.
      symmetry. apply (img_map_if false (fun v => v)).
  - intros summary w' Hret. rewrite Hrun in Hret.
    destruct (exposure_outcome e) as [factor|x]; [|discriminate].
    injection Hret as _ <-. cbn [trace].
    exists (run_events output b' c' s' h e flt). split; [reflexivity|]. split.
    + split.
      * intros [g Hg]. now apply gamma_in_run_events in Hg.
      * intros Hc. exists (gamma_value c'). now apply gamma_in_run_events.
    + intros g Hg. now apply gamma_in_run_events in Hg.
Qed.

Lemma overflow_outcome e :
  is_finite e = true -> SFleb (F64.of_Z 1024) e = true ->
  exposure_outcome e = Raised OverflowError.
Proof.
  intros Hfin Hle. unfold exposure_outcome, pow2_outcome, c_pow2. rewrite Hle.
  destruct e as [[]|[]| |[] m x]; try discriminate; reflexivity.
Qed.

(** C9 fails on the code.  A finite exposure of 1024 or more makes
    [2 ** exposure] overflow, Python raises [OverflowError] for it, and
    [process_image] ends there: nothing is clipped and nothing is written. *)
Theorem exposure_overflow_raises input output img w b c s h e flt auto :
  files w !! input = Some img ->
  is_finite e = true -> SFleb (F64.of_Z 1024) e = true ->
  let r := process_image input output b c s h e flt auto w in
  fst r = Raised OverflowError /\ files (snd r) = files w.
Proof.
  intros Hin Hfin Hle. cbv zeta.
  pose proof (process_image_run input output img w b c s h e flt auto Hin) as Hrun.
  destruct (auto_enhancement auto img (calculate_perceptual_metrics img) b c s)
    as [[b' c'] s'].
  rewrite Hrun, overflow_outcome by assumption. split; reflexivity.
Qed.
End Runs.

Lemma exposure_overflow_raises_witness :
  Reference.run Reference.sample f64_0 f64_1 f64_1 f64_0 (F64.of_Z 1024) None false =
  (Raised OverflowError,
   World {[ "in.jpg"%string := Reference.sample ]} [EvMetrics; EvExposure]).
Proof.
  pose proof (exposure_overflow_raises (E := Reference.opencv) "in.jpg" "out.jpg"
                Reference.sample (Reference.world_with "in.jpg" Reference.sample)
                f64_0 f64_1 f64_1 f64_0 (F64.of_Z 1024) None false
                eq_refl eq_refl eq_refl) as [Hr _].
  unfold Reference.run.
  destruct (process_image _ _ _ _ _ _ _ _ _ _) as [r w'] eqn:Hrun.
  simpl in Hr. subst r.
  vm_compute in Hrun. now injection Hrun as <-.
Defined.

(** ** Hue 180 *)



Lemma sf_same_eq x y : sf_same x y = true -> x = y.
Proof.
  destruct x as [[]|[]| |s m e], y as [[]|[]| |s' m' e']; simpl; try discriminate; auto.
  intros H. apply andb_prop in H as [H He]. apply andb_prop in H as [Hs Hm].
  apply Bool.eqb_prop in Hs. apply Pos.eqb_eq in Hm. apply Z.eqb_eq in He.
  now subst.
Qed.

(** Adding 180 to a stored hue and reducing modulo 180 gives it back. *)
Lemma hue_full_turn h :
  0 <= h < 180 ->
  np_mod (F32.add (F32.of_Z h) (F32.of_f64 f64_180)) (F32.of_Z 180) = F32.of_Z h.
Proof.
  intros Hh. apply sf_same_eq.
  apply (forall_range
           (fun h => sf_same (np_mod (F32.add (F32.of_Z h) (F32.of_f64 f64_180))
                                     (F32.of_Z 180)) (F32.of_Z h)) 180);
    [now vm_compute|lia].
Qed.

Lemma byte_through_float c : valid_channel c -> astype_uint8 (F32.of_Z c) = c.
Proof.
  intros Hc. apply Z.eqb_eq.
  apply (forall_range (fun c => astype_uint8 (F32.of_Z c) =? c) 256); [now vm_compute|].
  unfold valid_channel in Hc. lia.
Qed.

Lemma saturation_one c :
  valid_channel c ->
  astype_uint8 (np_clip f32_0 f32_255 (F32.mul (F32.of_Z c) (F32.of_f64 f64_1))) = c.
Proof.
  intros Hc. apply Z.eqb_eq.
  apply (forall_range
           (fun c => astype_uint8 (np_clip f32_0 f32_255
                       (F32.mul (F32.of_Z c) (F32.of_f64 f64_1))) =? c) 256);
    [now vm_compute|].
  unfold valid_channel in Hc. lia.
Qed.

Lemma denormalize_range v : valid_channel (denormalize v).
Proof.
  unfold valid_channel, denormalize, astype_uint8.
  pose proof (Z.mod_pos_bound (trunc (F32.mul v f32_255)) 256). lia.
Qed.

(** [x != 1.0] false means [x] is 1.0 itself. *)
Lemma not_ne_one x : py_ne x f64_1 = false -> x = f64_1.
Proof.
  unfold py_ne, SFeqb. change f64_1 with (S754_finite false 4503599627370496 (-52)).
  destruct x as [[]|[]| |[] m e]; cbn [SFcompare]; try discriminate.
  destruct (Z.compare_spec e (-52)); try discriminate.
  destruct (Pos.compare_cont Eq m 4503599627370496) eqn:Hm; try discriminate.
  apply Pcompare_Eq_eq in Hm. now subst.
Qed.

Section Hue.
Context {E : Externals}.


Lemma tonal_image_valid img b c e factor : valid_image (tonal_image img b c e factor).
Proof.
  unfold valid_image, tonal_image, img_map.
  apply Forall_map, Forall_forall. intros row _.
  apply Forall_map, Forall_forall. intros p _.
  repeat split; apply denormalize_range.
Qed.

Lemma hue_180_pixel s q :
  hsv_pixel q ->
  saturation_hue_pixel s f64_180 (px_map F32.of_Z q) =
  saturation_hue_pixel s f64_0 (px_map F32.of_Z q).
Proof.
  intros (Hh & _ & _). unfold saturation_hue_pixel. cbn [px_map c0 c1 c2].
  change (py_ne f64_180 f64_0) with true. change (py_ne f64_0 f64_0) with false.
  cbv iota. now rewrite hue_full_turn.
Qed.

Lemma hsv_round_trip_pixel q :
  hsv_pixel q ->
  px_map astype_uint8 (saturation_hue_pixel f64_1 f64_180 (px_map F32.of_Z q)) = q.
Proof.
  intros Hq. rewrite (hue_180_pixel _ _ Hq).
  destruct q as [h s v], Hq as (Hh & Hs & Hv); cbn [c0 c1 c2] in *.
  unfold saturation_hue_pixel, px_map. cbn [c0 c1 c2].
  change (py_ne f64_0 f64_0) with false. cbv iota.
  rewrite saturation_one by assumption.
  rewrite !byte_through_float; [reflexivity|assumption|].
  unfold valid_channel. lia.
Qed.

(** C5, as amended.  Under the 8-bit HSV contract, hue 180 leaves every
    stored hue as it is.  The run with hue 180 therefore writes the same
    image as the run with hue 0 whenever the saturation in force differs from
    1.0; when it equals 1.0, hue 0 skips the HSV block while hue 180 takes
    the image through BGR to HSV and back before the filter. *)
Theorem hue_180_is_hue_0_after_hsv input output img w b c s e flt auto :
  hsv_contract ->
  files w !! input = Some img ->
  let '(b', c', s') :=
    auto_enhancement auto img (calculate_perceptual_metrics img) b c s in
  forall factor, exposure_outcome e = Returned factor ->
  let tonal := tonal_image img b' c' e factor in
  let out0 := output_image img b' c' s' f64_0 e factor flt in
  let out180 := output_image img b' c' s' f64_180 e factor flt in
  files (snd (process_image input output b c s f64_0 e flt auto w)) !! output
    = Some out0 /\
  files (snd (process_image input output b c s f64_180 e flt auto w)) !! output
    = Some out180 /\
  (py_ne s' f64_1 = true -> out180 = out0) /\
  (py_ne s' f64_1 = false ->
     out0 = filter_image flt tonal /\
     out180 = filter_image flt (img_map (fun p => HSV2BGR (BGR2HSV p)) tonal)).
Proof.
  intros Hhsv Hin.
  pose proof (process_image_run input output img w b c s f64_0 e flt auto Hin) as Hrun0.
  pose proof (process_image_run input output img w b c s f64_180 e flt auto Hin) as Hrun180.
  destruct (auto_enhancement auto img (calculate_perceptual_metrics img) b c s)
    as [[b' c'] s'].
  intros factor Hexp. rewrite Hexp in Hrun0, Hrun180. cbv zeta in *.
  rewrite Hrun0, Hrun180. cbn [snd files].
  split; [apply lookup_insert_eq|]. split; [apply lookup_insert_eq|].
  unfold output_image. fold (tonal_image img b' c' e factor).
  pose proof (tonal_image_valid img b' c' e factor) as Hv.
  unfold saturation_hue_image, saturation_hue_runs.
  change (py_ne f64_180 f64_0) with true. change (py_ne f64_0 f64_0) with false.
  rewrite orb_true_r, orb_false_r. split.
  - intros ->. f_equal.
    apply (img_map_ext_on valid_pixel); [exact Hv|].
    intros p Hp. now rewrite hue_180_pixel by auto.
  - intros Hs. rewrite Hs. apply not_ne_one in Hs. subst s'. split; [reflexivity|].
    f_equal. apply (img_map_ext_on valid_pixel); [exact Hv|].
    intros p Hp. now rewrite hsv_round_trip_pixel by auto.
Qed.
End Hue.

(** ** No 8-bit HSV conversion gives every pixel back

    There are 256^3 BGR pixels and only 180 * 256^2 HSV triples. *)

Lemma no_injection_into_fewer (n m : nat) (f : nat -> nat) :
  (m < n)%nat ->
  (forall i, (i < n)%nat -> (f i < m)%nat) ->
  ~ (forall i j, (i < n)%nat -> (j < n)%nat -> f i = f j -> i = j).
Proof.
  intros Hmn Hrange Hinj.
  assert (Hnodup : List.NoDup (map f (seq 0 n))).
  { apply Finite.Injective_map_NoDup_in; [|apply seq_NoDup].
    intros i j Hi Hj. apply in_seq in Hi, Hj. apply Hinj; lia. }
  assert (Hincl : incl (map f (seq 0 n)) (seq 0 m)).
  { intros y Hy. apply in_map_iff in Hy as (i & <- & Hi). apply in_seq in Hi.
    apply in_seq. specialize (Hrange i). lia. }
  pose proof (List.NoDup_incl_length Hnodup Hincl) as Hlen.
  rewrite length_map, !length_seq in Hlen. lia.
Qed.

Lemma pixel_at_valid i : 0 <= i < 16777216 -> valid_pixel (pixel_at i).
Proof.
  intros Hi. unfold valid_pixel, valid_channel, pixel_at. cbn [c0 c1 c2].
  pose proof (Z.mod_pos_bound (i / 256) 256). pose proof (Z.mod_pos_bound i 256).
  assert (0 <= i / 65536 < 256).
  { split; [apply Z.div_pos; lia|apply Z.div_lt_upper_bound; lia]. }
  lia.
Qed.

Lemma pixel_index_at i : 0 <= i -> pixel_index (pixel_at i) = i.
Proof.
  intros Hi. unfold pixel_index, pixel_at. cbn [c0 c1 c2].
  pose proof (Z.div_mod i 256 ltac:(lia)) as H1.
  pose proof (Z.div_mod (i / 256) 256 ltac:(lia)) as H2.
  rewrite Z.div_div in H2 by lia. change (256 * 256) with 65536 in H2. lia.
Qed.

Lemma pixel_index_inj p q :
  0 <= c1 p < 256 -> 0 <= c2 p < 256 -> 0 <= c1 q < 256 -> 0 <= c2 q < 256 ->
  pixel_index p = pixel_index q -> p = q.
Proof.
  destruct p as [a b c], q as [a' b' c']. unfold pixel_index. cbn [c0 c1 c2].
  intros Hb Hc Hb' Hc' Heq.
  assert (c = c') by lia. assert (b = b') by lia. assert (a = a') by lia.
  now subst.
Qed.

Section Pigeonhole.
Context {E : Externals}.

Lemma hsv_round_trip_loses_a_pixel :
  hsv_contract -> ~ (forall p, valid_pixel p -> HSV2BGR (BGR2HSV p) = p).
Proof.
  intros Hhsv Hback.
  set (f := fun i : nat => Z.to_nat (pixel_index (BGR2HSV (pixel_at (Z.of_nat i))))).
  apply (no_injection_into_fewer (Z.to_nat 16777216) (Z.to_nat 11796480) f).
  - lia.
  - intros i Hi. unfold f.
    assert (Hi' : 0 <= Z.of_nat i < 16777216) by lia.
    destruct (Hhsv (pixel_at (Z.of_nat i)) (pixel_at_valid _ Hi')) as (Hh & Hs & Hv).
    unfold pixel_index, valid_channel in *. lia.
  - intros i j Hi Hj Hf. unfold f in Hf.
    assert (Hi' : 0 <= Z.of_nat i < 16777216) by lia.
    assert (Hj' : 0 <= Z.of_nat j < 16777216) by lia.
    pose proof (pixel_at_valid (Z.of_nat i) Hi') as Hvi.
    pose proof (pixel_at_valid (Z.of_nat j) Hj') as Hvj.
    destruct (Hhsv _ Hvi) as (Hh & Hs & Hv). destruct (Hhsv _ Hvj) as (Hh' & Hs' & Hv').
    unfold valid_channel in *.
    apply Z2Nat.inj in Hf; [|unfold pixel_index; lia|unfold pixel_index; lia].
    apply pixel_index_inj in Hf; try lia.
    apply (f_equal HSV2BGR) in Hf. rewrite !Hback in Hf by assumption.
    apply (f_equal pixel_index) in Hf. rewrite !pixel_index_at in Hf by lia. lia.
Qed.

Lemma saturation_one_hue_180_image img :
  hsv_contract -> valid_image img ->
  saturation_hue_image f64_1 f64_180 img = img_map (fun p => HSV2BGR (BGR2HSV p)) img.
Proof.
  intros Hhsv Hv. unfold saturation_hue_image, saturation_hue_runs.
  change (py_ne f64_180 f64_0) with true. rewrite orb_true_r.
  apply (img_map_ext_on valid_pixel); [exact Hv|].
  intros p Hp. now rewrite hsv_round_trip_pixel by auto.
Qed.

Lemma tonal_image_identity img :
  valid_image img -> tonal_image img f64_0 f64_1 f64_0 f64_1 = img.
Proof.
  intros Hv. rewrite <- (roundtrip_image img Hv) at 2.
  rewrite img_map_map. reflexivity.
Qed.

(** So hue 180 and hue 0 cannot write the same image for every input,
    whatever library stands behind the two conversions. *)
Lemma hue_180_differs_for_every_library :
  hsv_contract ->
  ~ (forall p w input output,
       valid_pixel p -> files w !! input = Some [[p]] ->
       files (snd (process_image input output
                     f64_0 f64_1 f64_1 f64_180 f64_0 None false w)) !! output =
       files (snd (process_image input output
                     f64_0 f64_1 f64_1 f64_0 f64_0 None false w)) !! output).
Proof.
  intros Hhsv Hall. apply (hsv_round_trip_loses_a_pixel Hhsv). intros p Hp.
  set (w := World {[ "in"%string := [[p]] ]} []).
  assert (Hin : files w !! "in"%string = Some [[p]]) by apply lookup_singleton_eq.
  assert (Hv : valid_image [[p]]) by (repeat constructor; apply Hp).
  specialize (Hall p w "in"%string "out"%string Hp Hin).
  pose proof (process_image_run "in" "out" [[p]] w
                f64_0 f64_1 f64_1 f64_0 f64_0 None false Hin) as H0.
  pose proof (process_image_run "in" "out" [[p]] w
                f64_0 f64_1 f64_1 f64_180 f64_0 None false Hin) as H180.
  unfold auto_enhancement in H0, H180.
  change (exposure_outcome f64_0) with (Returned f64_1) in H0, H180.
  cbv beta iota zeta in H0, H180.
  rewrite H0, H180 in Hall. cbn [snd files] in Hall.
  rewrite !lookup_insert_eq in Hall. unfold output_image in Hall.
  rewrite (tonal_image_identity _ Hv) in Hall.
  rewrite (saturation_one_hue_180_image _ Hhsv Hv) in Hall.
  unfold filter_image, saturation_hue_image in Hall.
  change (saturation_hue_runs f64_1 f64_0) with false in Hall.
  cbn [truthy img_map map] in Hall.
  now injection Hall.
Qed.
End Pigeonhole.





(** ** Rounding: what the shifts of [binary_round_aux] do to the mantissa *)

Lemma digits2_pos_upper p : Zpos p < 2 ^ Zpos (digits2_pos p).
Proof.
  induction p as [p IH|p IH|]; cbn [digits2_pos].
  - rewrite Pos2Z.inj_succ, Z.pow_succ_r, (Pos2Z.inj_xI p) by lia.
    remember (2 ^ Zpos (digits2_pos p)) as t. lia.
  - rewrite Pos2Z.inj_succ, Z.pow_succ_r, (Pos2Z.inj_xO p) by lia.
    remember (2 ^ Zpos (digits2_pos p)) as t. lia.
  - reflexivity.
Qed.

Lemma digits2_pos_lower p : 2 ^ (Zpos (digits2_pos p) - 1) <= Zpos p.
Proof.
  induction p as [p IH|p IH|]; cbn [digits2_pos].
  - rewrite Pos2Z.inj_succ, (Pos2Z.inj_xI p).
    replace (Z.succ (Zpos (digits2_pos p)) - 1) with (Z.succ (Zpos (digits2_pos p) - 1)) by lia.
    rewrite Z.pow_succ_r by lia.
    remember (2 ^ (Zpos (digits2_pos p) - 1)) as t. lia.
  - rewrite Pos2Z.inj_succ, (Pos2Z.inj_xO p).
    replace (Z.succ (Zpos (digits2_pos p)) - 1) with (Z.succ (Zpos (digits2_pos p) - 1)) by lia.
    rewrite Z.pow_succ_r by lia.
    remember (2 ^ (Zpos (digits2_pos p) - 1)) as t. lia.
  - reflexivity.
Qed.

(** A mantissa below [2^k] has at most [k] digits, and conversely. *)
Lemma digits2_le m k : 0 <= k -> Zpos m < 2 ^ k -> Zpos (digits2_pos m) <= k.
Proof.
  intros Hk Hm. pose proof (digits2_pos_lower m) as Hl.
  destruct (Z_le_gt_dec (Zpos (digits2_pos m)) k) as [|Hgt]; [assumption|].
  assert (2 ^ k <= 2 ^ (Zpos (digits2_pos m) - 1)) by (apply Z.pow_le_mono_r; lia).
  lia.
Qed.

Lemma Zdigits2_upper m : 0 <= m -> m < 2 ^ Zdigits2 m.
Proof.
  destruct m as [|p|p]; intros Hm; [reflexivity| |lia].
  apply digits2_pos_upper.
Qed.

Lemma Zdigits2_le m k : 0 <= m -> 0 <= k -> m < 2 ^ k -> Zdigits2 m <= k.
Proof.
  destruct m as [|p|p]; intros Hm Hk Hlt; [assumption| |lia].
  now apply digits2_le.
Qed.


Lemma shr_1_m mrs : 0 <= shr_m mrs -> shr_m (shr_1 mrs) = shr_m mrs / 2.
Proof.
  destruct mrs as [m r s]. cbn [shr_m]. intros Hm.
  destruct m as [|[p|p|]|p]; cbn [shr_1 shr_m]; try lia; try reflexivity.
  - rewrite (Pos2Z.inj_xI p). apply Z.div_unique with 1; lia.
  - rewrite (Pos2Z.inj_xO p). apply Z.div_unique with 0; lia.
Qed.

Lemma shr_1_r mrs : 0 <= shr_m mrs -> shr_r (shr_1 mrs) = Z.odd (shr_m mrs).
Proof.
  destruct mrs as [m r s]. cbn [shr_m]. intros Hm.
  destruct m as [|[p|p|]|p]; cbn [shr_1 shr_r]; try lia; reflexivity.
Qed.

Lemma shr_1_s mrs : shr_s (shr_1 mrs) = shr_r mrs || shr_s mrs.
Proof. destruct mrs as [m r s]. destruct m as [|[p|p|]|[p|p|]]; reflexivity. Qed.

Lemma shifted_step N k mrs :
  0 <= N -> 0 <= k -> shifted N k mrs -> shifted N (k + 1) (shr_1 mrs).
Proof.
  intros HN Hk [Hm Hex].
  assert (H2k : 0 < 2 ^ k) by (apply Z.pow_pos_nonneg; lia).
  assert (Hm0 : 0 <= shr_m mrs) by (rewrite Hm; apply Z.div_pos; lia).
  assert (Hpow : 2 ^ (k + 1) = 2 ^ k * 2) by (rewrite Z.pow_add_r by lia; reflexivity).
  split.
  - rewrite shr_1_m, Hm, Hpow by assumption. now rewrite Z.div_div by lia.
  - intros Hmod. rewrite Hpow in Hmod.
    assert (Hdiv : N = 2 ^ k * 2 * (N / (2 ^ k * 2))).
    { pose proof (Z.div_mod N (2 ^ k * 2)). lia. }
    assert (Hk0 : N mod 2 ^ k = 0).
    { rewrite Hdiv. rewrite <- Z.mul_assoc, Z.mul_comm. apply Z.mod_mul. lia. }
    destruct (Hex Hk0) as [Hr Hs].
    rewrite shr_1_r, shr_1_s, Hr, Hs by assumption. split; [|reflexivity].
    rewrite Hm. rewrite Hdiv.
    replace (2 ^ k * 2 * (N / (2 ^ k * 2))) with ((2 * (N / (2 ^ k * 2))) * 2 ^ k) by lia.
    rewrite Z.div_mul by lia. rewrite Z.odd_mul. reflexivity.
Qed.

Lemma shifted_iter N p : forall k mrs,
  0 <= N -> 0 <= k -> shifted N k mrs -> shifted N (k + Zpos p) (SpecFloat.iter_pos shr_1 p mrs).
Proof.
  induction p as [p IH|p IH|]; intros k mrs HN Hk Hs; cbn [SpecFloat.iter_pos].
  - replace (k + Zpos p~1) with (k + 1 + Zpos p + Zpos p) by lia.
    apply IH; [assumption|lia|]. apply IH; [assumption|lia|]. now apply shifted_step.
  - replace (k + Zpos p~0) with (k + Zpos p + Zpos p) by lia.
    apply IH; [assumption|lia|]. now apply IH.
  - now apply shifted_step.
Qed.

Lemma shifted_start N : shifted N 0 (shr_record_of_loc N loc_Exact).
Proof. split; cbn; [now rewrite Z.div_1_r|auto]. Qed.

(** Rounding to nearest even moves the quotient up by at most one, and not
    at all when nothing was lost. *)
Lemma round_nearest_even_bounds mrs :
  let m := round_nearest_even (shr_m mrs) (loc_of_shr_record mrs) in
  shr_m mrs <= m <= shr_m mrs + 1 /\
  (shr_r mrs = false /\ shr_s mrs = false -> m = shr_m mrs).
Proof.
  destruct mrs as [m [] []]; cbn; try (destruct (Z.even m)); split; try lia; intros [? ?]; try discriminate; reflexivity.
Qed.

(** *** At single precision *)


(** One pass of [shr_fexp] from an exact start: a shift of [k] places that
    brings the exponent up to the canonical one, or none when it is there
    already. *)
Lemma shr_fexp_exact m e :
  0 <= m ->
  exists k mrs,
    shr_fexp F32.prec F32.emax m e loc_Exact = (mrs, e + k) /\
    0 <= k /\ shifted m k mrs /\
    fexp32 (Zdigits2 m + e) <= e + k /\
    (k = 0 \/ e + k = fexp32 (Zdigits2 m + e)).
Proof.
  intros Hm. unfold shr_fexp, shr.
  change (fexp F32.prec F32.emax (Zdigits2 m + e)) with (fexp32 (Zdigits2 m + e)).
  destruct (fexp32 (Zdigits2 m + e) - e) as [|p|p] eqn:Hn.
  - exists 0, (shr_record_of_loc m loc_Exact). rewrite Z.add_0_r.
    split; [reflexivity|]. split; [lia|]. split; [apply shifted_start|].
    split; [lia|now left].
  - exists (Zpos p), (SpecFloat.iter_pos shr_1 p (shr_record_of_loc m loc_Exact)).
    split; [reflexivity|]. split; [lia|]. split.
    + apply (shifted_iter m p 0); [assumption|lia|apply shifted_start].
    + split; [lia|right; lia].
  - exists 0, (shr_record_of_loc m loc_Exact). rewrite Z.add_0_r.
    split; [reflexivity|]. split; [lia|]. split; [apply shifted_start|].
    split; [lia|now left].
Qed.

Lemma shifted_nonneg N k mrs : 0 <= N -> 0 <= k -> shifted N k mrs -> 0 <= shr_m mrs.
Proof.
  intros HN Hk [-> _]. apply Z.div_pos; [assumption|]. apply Z.pow_pos_nonneg; lia.
Qed.

Lemma shr_1_nonneg mrs : 0 <= shr_m mrs -> 0 <= shr_m (shr_1 mrs).
Proof.
  destruct mrs as [m r s]. destruct m as [|[p|p|]|p]; cbn; lia.
Qed.

Lemma iter_shr_1_nonneg p : forall mrs,
  0 <= shr_m mrs -> 0 <= shr_m (SpecFloat.iter_pos shr_1 p mrs).
Proof.
  induction p as [p IH|p IH|]; intros mrs Hm; cbn [SpecFloat.iter_pos].
  - now apply IH, IH, shr_1_nonneg.
  - now apply IH, IH.
  - now apply shr_1_nonneg.
Qed.

(** At any precision and from any location, a pass keeps the mantissa from
    going negative. *)
Lemma shr_fexp_nonneg prec emax m e l :
  0 <= m -> 0 <= shr_m (fst (shr_fexp prec emax m e l)).
Proof.
  intros Hm. unfold shr_fexp, shr.
  assert (H0 : 0 <= shr_m (shr_record_of_loc m l)) by (destruct l as [|[]]; exact Hm).
  destruct (fexp prec emax (Zdigits2 m + e) - e); cbn [fst]; try exact H0.
  now apply iter_shr_1_nonneg.
Qed.

(** Whatever is rounded, the result is a number with a mantissa of at most
    24 bits, or a zero or an infinity: never NaN. *)
Lemma binary_round_aux_f32 s m e l :
  0 <= m ->
  let r := binary_round_aux F32.prec F32.emax s m e l in
  is_nan r = false /\ is_f32 r = true.
Proof.
  intros Hm. unfold binary_round_aux.
  pose proof (shr_fexp_nonneg F32.prec F32.emax m e l Hm) as Hq.
  destruct (shr_fexp F32.prec F32.emax m e l) as [mrs e1]. cbn [fst] in Hq.
  pose proof (round_nearest_even_bounds mrs) as [[Hlo _] _].
  set (m1 := round_nearest_even (shr_m mrs) (loc_of_shr_record mrs)) in *.
  assert (Hm1 : 0 <= m1) by lia.
  destruct (shr_fexp_exact m1 e1 Hm1) as (k2 & mrs2 & -> & Hk2 & Hsh2 & Hge & Hcanon).
  pose proof (shifted_nonneg _ _ _ Hm1 Hk2 Hsh2) as Hq2.
  assert (Hlt : shr_m mrs2 < 2 ^ 24).
  { destruct Hsh2 as [-> _].
    pose proof (Zdigits2_upper m1 Hm1) as Hup.
    assert (Hd : Zdigits2 m1 <= k2 + 24) by (unfold fexp32 in *; lia).
    assert (Hd0 : 0 <= Zdigits2 m1) by (destruct m1; cbn; lia).
    apply Z.div_lt_upper_bound; [apply Z.pow_pos_nonneg; lia|].
    rewrite <- Z.pow_add_r by lia.
    eapply Z.lt_le_trans; [exact Hup|]. apply Z.pow_le_mono_r; lia. }
  destruct (shr_m mrs2) as [|p|p]; cbv zeta; [split; reflexivity| |lia].
  destruct (e1 + k2 <=? F32.emax - F32.prec); [|split; reflexivity].
  split; [reflexivity|]. cbn [is_f32]. apply Z.leb_le.
  apply digits2_le; [unfold F32.prec; lia|exact Hlt].
Qed.

Lemma Zdigits2_lower m : 0 < m -> 2 ^ (Zdigits2 m - 1) <= m.
Proof.
  destruct m as [|p|p]; intros Hm; try lia. apply digits2_pos_lower.
Qed.

(** A value of at most [B], an integer below [2^24], is not rounded above
    [B].  One pass first: the shifted mantissa and its rounding stay under
    [B] at the new exponent, which is still not positive. *)
Lemma pass_below B m e :
  0 < B < 2 ^ 24 -> 0 <= m -> e <= 0 -> m <= B * 2 ^ (- e) ->
  exists k mrs,
    shr_fexp F32.prec F32.emax m e loc_Exact = (mrs, e + k) /\
    0 <= k /\ e + k <= 0 /\ 0 <= shr_m mrs /\
    shr_m mrs <= B * 2 ^ (- (e + k)) /\
    0 <= round_nearest_even (shr_m mrs) (loc_of_shr_record mrs)
      <= B * 2 ^ (- (e + k)).
Proof.
  intros HB Hm He Hle.
  destruct (shr_fexp_exact m e Hm) as (k & mrs & Heq & Hk & Hsh & _ & Hcanon).
  exists k, mrs. split; [exact Heq|]. split; [exact Hk|].
  assert (HP : 0 < 2 ^ (- e)) by (apply Z.pow_pos_nonneg; lia).
  assert (Hek : e + k <= 0).
  { destruct Hcanon as [-> | ->]; [lia|]. unfold fexp32.
    destruct (Z.eq_dec m 0) as [-> | Hne]; [cbn; lia|].
    pose proof (Zdigits2_lower m ltac:(lia)) as Hlow.
    assert (Hlt : 2 ^ (Zdigits2 m - 1) < 2 ^ (24 + - e)).
    { rewrite Z.pow_add_r by lia.
      eapply Z.le_lt_trans; [exact Hlow|]. eapply Z.le_lt_trans; [exact Hle|].
      apply Z.mul_lt_mono_pos_r; lia. }
    apply Z.pow_lt_mono_r_iff in Hlt; lia. }
  split; [exact Hek|].
  pose proof (shifted_nonneg _ _ _ Hm Hk Hsh) as Hq. split; [exact Hq|].
  set (K := B * 2 ^ (- (e + k))).
  assert (H2k : 0 < 2 ^ k) by (apply Z.pow_pos_nonneg; lia).
  assert (HK : B * 2 ^ (- e) = K * 2 ^ k).
  { unfold K. rewrite <- Z.mul_assoc, <- Z.pow_add_r by lia. do 2 f_equal. lia. }
  destruct Hsh as [Hqm Hexact].
  assert (HqK : shr_m mrs <= K).
  { rewrite Hqm. apply Z.div_le_upper_bound; [exact H2k|]. rewrite Z.mul_comm. lia. }
  split; [exact HqK|].
  pose proof (round_nearest_even_bounds mrs) as [[Hlo Hhi] Hsame].
  split; [lia|].
  destruct (Z.eq_dec (m mod 2 ^ k) 0) as [Hz|Hnz].
  - rewrite (Hsame (Hexact Hz)). exact HqK.
  - assert (shr_m mrs < K); [|lia].
    destruct (Z.eq_dec (shr_m mrs) K) as [HeqK|]; [|lia].
    exfalso. apply Hnz.
    pose proof (Z.div_mod m (2 ^ k) ltac:(lia)) as Hdm.
    pose proof (Z.mod_pos_bound m (2 ^ k) H2k) as Hmb.
    rewrite <- Hqm, HeqK in Hdm. lia.
Qed.

Lemma binary_round_aux_below B m e :
  0 < B < 2 ^ 24 -> 0 <= m -> e <= 0 -> m <= B * 2 ^ (- e) ->
  match binary_round_aux F32.prec F32.emax false m e loc_Exact with
  | S754_zero _ => True
  | S754_finite false m' e' => e' <= 0 /\ Zpos m' <= B * 2 ^ (- e')
  | _ => False
  end.
Proof.
  intros HB Hm He Hle. unfold binary_round_aux.
  destruct (pass_below B m e HB Hm He Hle)
    as (k & mrs & -> & Hk & Hek & _ & _ & Hm1 & Hle1).
  destruct (pass_below B _ (e + k) HB Hm1 Hek Hle1)
    as (k2 & mrs2 & -> & Hk2 & Hek2 & Hq2 & Hle2 & _).
  destruct (shr_m mrs2) as [|p|p]; cbv zeta; [exact I| |lia].
  replace (e + k + k2 <=? F32.emax - F32.prec) with true
    by (symmetry; apply Z.leb_le; unfold F32.emax, F32.prec; lia).
  split; assumption.
Qed.

Lemma trunc_below B m e :
  e <= 0 -> Zpos m <= B * 2 ^ (- e) -> 0 <= trunc (S754_finite false m e) <= B.
Proof.
  intros He Hle. cbn [trunc]. destruct e as [|p|p]; try lia.
  - rewrite Z.shiftl_0_r. cbn in Hle. lia.
  - rewrite Z.shiftr_div_pow2 by lia.
    change (- Zneg p) with (Zpos p) in Hle.
    assert (0 < 2 ^ Zpos p) by (apply Z.pow_pos_nonneg; lia).
    split; [apply Z.div_pos; lia|].
    apply Z.div_le_upper_bound; [assumption|]. lia.
Qed.

(** A [float32] in the unit interval is zero, or positive with a value of
    at most one. *)
Lemma in_unit_inv v :
  in_unit v = true ->
  (exists s, v = S754_zero s) \/
  (exists m e, v = S754_finite false m e /\ e < 0 /\ Zpos m <= 2 ^ (- e)).
Proof.
  unfold in_unit. intros H.
  apply andb_prop in H as [H Hf]. apply andb_prop in H as [H0 H1].
  destruct v as [s|[]| |[] m e]; try discriminate; [left; eauto|right].
  exists m, e. split; [reflexivity|].
  cbn [is_f32] in Hf. apply Z.leb_le in Hf.
  pose proof (digits2_pos_upper m) as Hup.
  assert (Hm24 : Zpos m < 2 ^ 24).
  { eapply Z.lt_le_trans; [exact Hup|]. apply Z.pow_le_mono_r; unfold F32.prec in Hf; lia. }
  unfold SFleb in H1. change f32_1 with (S754_finite false 8388608 (-23)) in H1.
  cbn [SFcompare] in H1.
  destruct (Z.compare_spec e (-23)) as [->|Hlt|Hgt]; try discriminate.
  - split; [lia|]. change (- -23) with 23.
    destruct (Pos.compare_cont Eq m 8388608) eqn:Hc; try discriminate.
    + apply Pcompare_Eq_eq in Hc. subst. reflexivity.
    + assert (Hlt : (m < 8388608)%positive) by exact Hc.
      apply Pos2Z.pos_lt_pos in Hlt. change (2 ^ 23) with 8388608.
      now apply Z.lt_le_incl.
  - split; [lia|].
    assert (2 ^ 24 <= 2 ^ (- e)) by (apply Z.pow_le_mono_r; lia). lia.
Qed.

(** The conversion back to 8 bits of a normalized value does not wrap. *)
Lemma denormalize_in_unit v :
  in_unit v = true ->
  denormalize v = trunc (F32.mul v f32_255) /\ 0 <= denormalize v <= 255.
Proof.
  intros Hv.
  assert (Hr : 0 <= trunc (F32.mul v f32_255) <= 255).
  { change f32_255 with (S754_finite false 16711680 (-16)).
    destruct (in_unit_inv v Hv) as [[s ->]|(m & e & -> & He & Hm)].
    - unfold F32.mul, SFmul. cbn [trunc]. lia.
    - unfold F32.mul, SFmul. cbn [xorb].
      assert (Hle : Zpos (m * 16711680) <= 255 * 2 ^ (- (e + -16))).
      { rewrite Pos2Z.inj_mul.
        replace (- (e + -16)) with (- e + 16) by lia.
        rewrite Z.pow_add_r by lia. change (2 ^ 16) with 65536.
        remember (2 ^ (- e)) as P. lia. }
      pose proof (binary_round_aux_below 255 (Zpos (m * 16711680)) (e + -16)
                    ltac:(cbn; lia) ltac:(lia) ltac:(lia) Hle) as Hb.
      destruct (binary_round_aux _ _ _ _ _ _) as [s'|s'| |[] m' e'];
        try contradiction.
      + cbn [trunc]. lia.
      + destruct Hb. now apply trunc_below. }
  unfold denormalize, astype_uint8. rewrite Z.mod_small by lia. split; [reflexivity|lia].
Qed.

(** *** Signs out of rounding, at any precision *)

Lemma binary_round_aux_sign prec emax s m e l :
  0 <= m -> has_sign s (binary_round_aux prec emax s m e l).
Proof.
  intros Hm. unfold binary_round_aux.
  pose proof (shr_fexp_nonneg prec emax m e l Hm) as H1.
  destruct (shr_fexp prec emax m e l) as [mrs e']. cbn [fst] in H1.
  pose proof (round_nearest_even_bounds mrs) as [[Hlo _] _].
  set (m1 := round_nearest_even (shr_m mrs) (loc_of_shr_record mrs)) in *.
  pose proof (shr_fexp_nonneg prec emax m1 e' loc_Exact ltac:(lia)) as H2.
  destruct (shr_fexp prec emax m1 e' loc_Exact) as [mrs2 e2]. cbn [fst] in H2.
  destruct (shr_m mrs2) as [|p|p]; [reflexivity| |lia].
  destruct (e2 <=? emax - prec); reflexivity.
Qed.

Lemma binary_round_sign prec emax s m e : has_sign s (binary_round prec emax s m e).
Proof.
  unfold binary_round. destruct (shl_align _ _ _) as [mz ez].
  apply binary_round_aux_sign. lia.
Qed.

Lemma binary_round_f32 s m e :
  let r := binary_round F32.prec F32.emax s m e in
  is_nan r = false /\ is_f32 r = true.
Proof.
  unfold binary_round. destruct (shl_align _ _ _) as [mz ez].
  apply binary_round_aux_f32. lia.
Qed.

Lemma binary_normalize_f32 m e s :
  let r := binary_normalize F32.prec F32.emax m e s in
  is_nan r = false /\ is_f32 r = true.
Proof.
  destruct m as [|p|p]; cbn [binary_normalize]; [split; reflexivity| |];
    apply binary_round_f32.
Qed.


Lemma of_f64_number x : is_nan x = false -> f32_number (F32.of_f64 x).
Proof.
  destruct x as [s|s| |s m e]; intros Hx; try discriminate; try (split; reflexivity).
  apply binary_round_f32.
Qed.

Lemma in_unit_number v : in_unit v = true -> f32_number v /\ is_finite v = true.
Proof.
  unfold in_unit. intros H.
  apply andb_prop in H as [H Hf]. apply andb_prop in H as [H0 H1].
  destruct v as [s|[]| |s m e]; try discriminate; repeat split; assumption.
Qed.

Lemma add_number v b :
  is_finite v = true -> is_f32 v = true -> f32_number b -> f32_number (F32.add v b).
Proof.
  intros Hv Hvf [Hb Hbf].
  destruct v as [sv|sv| |sv mv ev]; try discriminate;
    destruct b as [sb|sb| |sb mb eb]; try discriminate;
    unfold F32.add, SFadd; try (split; assumption); try (split; reflexivity).
  - destruct sv, sb; split; reflexivity.
  - apply binary_normalize_f32.
Qed.

Lemma mul_number v c :
  is_finite v = true -> is_finite c = true -> f32_number (F32.mul v c).
Proof.
  intros Hv Hc.
  destruct v as [sv|sv| |sv mv ev]; try discriminate;
    destruct c as [sc|sc| |sc mc ec]; try discriminate;
    unfold F32.mul, SFmul; try (split; reflexivity).
  apply binary_round_aux_f32. lia.
Qed.

Lemma ltb_leb a b : SFltb a b = true -> SFleb a b = true.
Proof. unfold SFltb, SFleb. now destruct (SFcompare a b) as [[]|]. Qed.

(** Clipping a [float32] number to [0, 1] lands in the unit interval. *)
Lemma clip_in_unit x : f32_number x -> in_unit (np_clip f32_0 f32_1 x) = true.
Proof.
  intros [Hn Hf]. unfold np_clip. rewrite Hn. cbv zeta. unfold py_gt, py_lt.
  destruct (SFltb f32_0 x) eqn:H0.
  - destruct (SFltb x f32_1) eqn:H1; [|reflexivity].
    unfold in_unit. now rewrite (ltb_leb _ _ H0), (ltb_leb _ _ H1), Hf.
  - reflexivity.
Qed.

Lemma normalize_in_unit c : valid_channel c -> in_unit (normalize c) = true.
Proof.
  intros Hc.
  apply (forall_range (fun c => in_unit (normalize c)) 256); [now vm_compute|].
  unfold valid_channel in Hc. lia.
Qed.

(** The exponent of the gamma stage is never negative and never NaN. *)
Lemma gamma_exponent_nonneg c : SFleb f32_0 (F32.of_f64 (gamma_value c)) = true.
Proof.
  unfold gamma_value. destruct (py_gt c f64_0) eqn:Hc; [|reflexivity].
  assert (Hs : has_sign false (F64.div f64_1 c)).
  { change f64_1 with (S754_finite false 4503599627370496 (-52)).
    destruct c as [[]|[]| |[] m e]; try discriminate; try reflexivity.
    unfold F64.div, SFdiv, SFdiv_core_binary. cbv zeta.
    destruct (Z.div_eucl _ (Zpos m)) as [q r] eqn:Hqr.
    apply binary_round_aux_sign.
    assert (Hq : q = fst (Z.div_eucl
              match (-52 - e - Z.min (fexp F64.prec F64.emax
                       (Zdigits2 4503599627370496 + -52 - (Zdigits2 (Zpos m) + e)))
                       (-52 - e)) with
              | 0 => 4503599627370496
              | Zpos _ =>
                  Z.shiftl 4503599627370496
                    (-52 - e - Z.min (fexp F64.prec F64.emax
                       (Zdigits2 4503599627370496 + -52 - (Zdigits2 (Zpos m) + e)))
                       (-52 - e))
              | Zneg _ => 0
              end (Zpos m))) by now rewrite Hqr.
    rewrite Hq. change (fst (Z.div_eucl ?a ?b)) with (a / b).
    apply Z.div_pos; [|lia].
    destruct (_ - _) as [|p|p]; try lia. apply Z.shiftl_nonneg. lia. }
  destruct (F64.div f64_1 c) as [s|s| |s m e]; cbn in Hs; try contradiction; subst;
    try reflexivity.
  cbn [F32.of_f64].
  pose proof (binary_round_sign F32.prec F32.emax false m e) as Hr.
  destruct (binary_round _ _ _ _ _) as [s|s| |s m' e']; cbn in Hr;
    try contradiction; subst; reflexivity.
Qed.


(** ** Clamping *)

Lemma brightness_channel_unit b v :
  is_nan b = false -> in_unit v = true -> in_unit (brightness_channel b v) = true.
Proof.
  intros Hb Hv. unfold brightness_channel.
  destruct (py_ne b f64_0); [|exact Hv].
  destruct (in_unit_number v Hv) as [[_ Hf] Hfin].
  apply clip_in_unit, add_number; auto using of_f64_number.
Qed.

Lemma scale_channel_unit k v :
  is_finite (F32.of_f64 k) = true -> in_unit v = true ->
  in_unit (np_clip f32_0 f32_1 (F32.mul v (F32.of_f64 k))) = true.
Proof.
  intros Hk Hv. destruct (in_unit_number v Hv) as [_ Hfin].
  now apply clip_in_unit, mul_number.
Qed.

Lemma contrast_channel_unit c v :
  is_finite (F32.of_f64 c) = true -> in_unit v = true ->
  in_unit (contrast_channel c v) = true.
Proof.
  intros Hc Hv. unfold contrast_channel.
  destruct (py_ne c f64_1); [|exact Hv]. now apply scale_channel_unit.
Qed.

Lemma exposure_channel_unit e factor v :
  is_finite (F32.of_f64 factor) = true -> in_unit v = true ->
  in_unit (exposure_channel e factor v) = true.
Proof.
  intros Hc Hv. unfold exposure_channel.
  destruct (py_ne e f64_0); [|exact Hv]. now apply scale_channel_unit.
Qed.

Section Clamping.
Context {E : Externals}.

Lemma gamma_channel_unit c v :
  power_contract -> in_unit v = true -> in_unit (gamma_channel c v) = true.
Proof.
  intros Hpow Hv. unfold gamma_channel.
  destruct (py_ne c f64_1); [|exact Hv].
  apply Hpow; [exact Hv|apply gamma_exponent_nonneg].
Qed.

Lemma tonal_channel_unit b c e factor x :
  power_contract -> valid_channel x ->
  is_nan b = false -> is_finite (F32.of_f64 c) = true ->
  is_finite (F32.of_f64 factor) = true ->
  unit_channel (tonal_channel b c e factor (normalize x)).
Proof.
  intros Hpow Hx Hb Hc Hf.
  assert (Hu : in_unit (tonal_channel b c e factor (normalize x)) = true).
  { unfold tonal_channel.
    apply gamma_channel_unit; [exact Hpow|].
    apply exposure_channel_unit; [exact Hf|].
    apply contrast_channel_unit; [exact Hc|].
    apply brightness_channel_unit; [exact Hb|].
    now apply normalize_in_unit. }
  split; [exact Hu|]. now apply denormalize_in_unit.
Qed.

(** C2, as amended.  Whatever the brightness, contrast and exposure, every
    channel the tonal stages hand on is converted to a byte, a value in
    0..255.  When brightness is not NaN and the contrast and the factor
    [2 ** exposure] are finite as [float32], every normalized channel lies in
    [0, 1] just before the conversion, which then does not wrap: the byte is
    the truncated product with 255.  The C library's [powf] is asked to keep
    the unit interval, as [power_contract] says. *)
Theorem tonal_output_in_range img b c e w img_float w' :
  power_contract -> valid_image img ->
  tonal_adjustments (img_map (px_map normalize) img) b c e w = (Returned img_float, w') ->
  valid_image (img_map (px_map denormalize) img_float) /\
  (is_nan b = false ->
   is_finite (F32.of_f64 c) = true ->
   (forall factor, exposure_outcome e = Returned factor ->
                   is_finite (F32.of_f64 factor) = true) ->
   all_channels unit_channel img_float).
Proof.
  intros Hpow Hv Hrun. split.
  - unfold valid_image, img_map.
    apply Forall_map, Forall_forall. intros row _.
    apply Forall_map, Forall_forall. intros p _.
    repeat split; apply denormalize_range.
  - intros Hb Hc He. rewrite tonal_adjustments_run in Hrun.
    destruct (exposure_outcome e) as [factor|x]; [|discriminate].
    specialize (He factor eq_refl).
    injection Hrun as <- _.
    rewrite img_map_map. unfold all_channels, img_map.
    apply Forall_map. eapply Forall_impl; [exact Hv|]. intros row Hrow.
    apply Forall_map. eapply Forall_impl; [exact Hrow|].
    intros [x0 x1 x2] (H0 & H1 & H2). cbn [px_map c0 c1 c2] in *.
    repeat split; now apply tonal_channel_unit.
Qed.
End Clamping.



(** ** The reference implementation keeps the contracts *)

Lemma reference_hsv_contract : hsv_contract (E := Reference.opencv).
Proof.
  intros p _. unfold hsv_pixel, valid_channel. cbn [BGR2HSV Reference.opencv].
  unfold Reference.bgr2hsv. cbn [c0 c1 c2].
  split; [apply Z.mod_pos_bound; lia|].
  split; [destruct (_ =? 0)|]; lia.
Qed.

Lemma mul01_unit a b :
  in_unit a = true -> in_unit b = true -> in_unit (Reference.mul01 a b) = true.
Proof.
  intros Ha Hb. apply clip_in_unit, mul_number; now apply in_unit_number.
Qed.

Lemma sqrt01_unit a : in_unit a = true -> in_unit (Reference.sqrt01 a) = true.
Proof.
  intros Ha. apply clip_in_unit.
  destruct (in_unit_inv a Ha) as [[s ->]|(m & e & -> & _ & _)]; [split; reflexivity|].
  unfold SFsqrt, SFsqrt_core_binary. cbv zeta.
  destruct (Z.sqrtrem _) as [q r] eqn:Hqr.
  apply binary_round_aux_f32.
  assert (Hq : q = fst (Z.sqrtrem
    match (e - 2 * Z.min (fexp F32.prec F32.emax (Z.div2 (Zdigits2 (Zpos m) + e + 1)))
                        (Z.div2 e)) with
    | 0 => Zpos m
    | Zpos _ => Z.shiftl (Zpos m)
        (e - 2 * Z.min (fexp F32.prec F32.emax (Z.div2 (Zdigits2 (Zpos m) + e + 1)))
                       (Z.div2 e))
    | Zneg _ => 0
    end)) by now rewrite Hqr.
  rewrite Hq, Z.sqrtrem_sqrt. apply Z.sqrt_nonneg.
Qed.

Lemma pow_pos_unit v n : in_unit v = true -> in_unit (Reference.pow_pos v n) = true.
Proof.
  intros Hv. induction n as [n IH|n IH|]; cbn [Reference.pow_pos]; cbv zeta;
    auto using mul01_unit.
Qed.

Lemma pow_frac_unit v r : forall acc,
  in_unit v = true -> in_unit acc = true -> in_unit (Reference.pow_frac v r acc) = true.
Proof.
  induction r as [r IH|r IH|]; intros acc Hv Hacc; cbn [Reference.pow_frac];
    auto using mul01_unit, sqrt01_unit.
Qed.

Lemma iter_sqrt01_unit n a :
  in_unit a = true -> in_unit (Nat.iter n Reference.sqrt01 a) = true.
Proof. intros Ha. induction n; cbn [Nat.iter nat_rect]; auto using sqrt01_unit. Qed.

Lemma reference_power_contract : power_contract (E := Reference.opencv).
Proof.
  intros v g Hv Hg. cbn [np_power Reference.opencv]. unfold Reference.powf.
  destruct g as [s|[]| |[] m [|e|e]]; try discriminate; cbn [is_zero];
    try reflexivity; rewrite Hv; cbn [negb].
  - destruct (SFeqb v f32_1); reflexivity.
  - now apply pow_pos_unit.
  - now apply pow_pos_unit.
  - cbv zeta. apply mul01_unit.
    + destruct (Z.shiftr _ _); try reflexivity. now apply pow_pos_unit.
    + destruct (Z.land _ _); try reflexivity.
      apply iter_sqrt01_unit. now apply pow_frac_unit.
Qed.


(** ** The theorems at work on the reference implementation *)

(** Brightness 0.2, contrast 1.2 and exposure 0.1 on the sample. *)
Lemma tonal_output_in_range_witness :
  exists img_float w',
    tonal_adjustments (E := Reference.opencv)
      (img_map (px_map normalize) Reference.sample)
      (F64.lit 2 10) (F64.lit 12 10) (F64.lit 1 10) (World ∅ []) =
      (Returned img_float, w') /\
    valid_image (img_map (px_map denormalize) img_float) /\
    all_channels unit_channel img_float.
Proof.
  destruct (tonal_adjustments (E := Reference.opencv)
              (img_map (px_map normalize) Reference.sample)
              (F64.lit 2 10) (F64.lit 12 10) (F64.lit 1 10) (World ∅ []))
    as [[img_float|x] w'] eqn:Hrun.
  - exists img_float, w'. split; [reflexivity|].
    destruct (tonal_output_in_range (E := Reference.opencv) Reference.sample
                (F64.lit 2 10) (F64.lit 12 10) (F64.lit 1 10) (World ∅ [])
                img_float w' reference_power_contract sample_valid Hrun)
      as [Hbytes Hunit].
    split; [exact Hbytes|]. apply Hunit.
    + reflexivity.
    + now vm_compute.
    + intros factor Hf. vm_compute in Hf. injection Hf as <-. now vm_compute.
  - exfalso. rewrite tonal_adjustments_run in Hrun.
    vm_compute in Hrun. discriminate Hrun.
Defined.

(** With a NaN brightness the stage runs, the clip lets NaN through, and the
    normalized image holds NaN, which is no value of [0, 1]. *)
Lemma nan_brightness_leaves_unit_interval :
  fst (tonal_adjustments (E := Reference.opencv)
         (img_map (px_map normalize) Reference.black)
         S754_nan f64_1 f64_0 (World ∅ [])) =
    Returned [[Px S754_nan S754_nan S754_nan]] /\
  in_unit S754_nan = false.
Proof. split; now vm_compute. Qed.

(** Contrast 0.5 on the sample: the gamma stage runs with exponent 2. *)
Lemma gamma_runs_iff_contrast_differs_witness :
  exists events,
    trace (snd (Reference.run Reference.sample
                  f64_0 (F64.lit 5 10) f64_1 f64_0 f64_0 None false)) = [] ++ events /\
    ((exists g, In (EvGamma g) events) <-> py_ne (F64.lit 5 10) f64_1 = true) /\
    (forall g, In (EvGamma g) events -> g = F64.of_Z 2).
Proof.
  pose proof (gamma_runs_iff_contrast_differs (E := Reference.opencv)
                "in.jpg" "out.jpg" Reference.sample
                (Reference.world_with "in.jpg" Reference.sample)
                f64_0 (F64.lit 5 10) f64_1 f64_0 f64_0 None false eq_refl) as H.
  unfold auto_enhancement in H. cbv beta iota zeta in H. destruct H as [_ H].
  unfold Reference.run.
  destruct (process_image _ _ _ _ _ _ _ _ _ _) as [[summary|x] w'] eqn:Hrun.
  - destruct (H summary w' eq_refl) as (events & Htr & Hiff & Hg).
    exists events. cbn [snd]. split; [exact Htr|]. split; [exact Hiff|].
    intros g Hin. rewrite (Hg g Hin). now vm_compute.
  - exfalso. vm_compute in Hrun. discriminate Hrun.
Defined.

(** Saturation 1.1 on the sample: hue 180 and hue 0 write the same image. *)
Lemma hue_180_is_hue_0_after_hsv_witness :
  files (snd (Reference.run Reference.sample
                f64_0 f64_1 (F64.lit 11 10) f64_180 f64_0 None false)) !! "out.jpg"%string =
  files (snd (Reference.run Reference.sample
                f64_0 f64_1 (F64.lit 11 10) f64_0 f64_0 None false)) !! "out.jpg"%string.
Proof.
  pose proof (hue_180_is_hue_0_after_hsv (E := Reference.opencv)
                "in.jpg" "out.jpg" Reference.sample
                (Reference.world_with "in.jpg" Reference.sample)
                f64_0 f64_1 (F64.lit 11 10) f64_0 None false
                reference_hsv_contract eq_refl) as H.
  unfold auto_enhancement in H. cbv beta iota in H.
  destruct (H f64_1 eq_refl) as (H0 & H180 & Hsame & _).
  unfold Reference.run. rewrite H0, H180.
  apply (f_equal Some), Hsame. reflexivity.
Defined.

(** The pixel (B, G, R) = (0, 1, 255) is stored as hue 0, saturation 255,
    value 255, which is pure red: hue 180 writes (0, 0, 255) where hue 0
    writes the input. *)
Lemma hue_180_differs_from_hue_0 :
  (files (snd (Reference.run [[Px 0 1 255]]
                 f64_0 f64_1 f64_1 f64_180 f64_0 None false)) !! "out.jpg"%string,
   files (snd (Reference.run [[Px 0 1 255]]
                 f64_0 f64_1 f64_1 f64_0 f64_0 None false)) !! "out.jpg"%string) =
  (Some [[Px 0 0 255]], Some [[Px 0 1 255]]).
Proof. now vm_compute. Qed.


(** * Further properties of the code *)

(** ** The other accessibility filters *)

Section MoreFilters.
Context {E : Externals}.

(** X1.  The deuteranopia filter writes half of the red channel, rounded down,
    into the green channel of every pixel and leaves blue and red alone. *)
Theorem deuteranopia_halves_red img :
  valid_image img ->
  apply_accessibility_filters img (Some "colorblind_deuteranopia"%string) =
    img_map (fun p => Px (c0 p) (c2 p / 2) (c2 p)) img.
Proof.
  intros Hv. unfold apply_accessibility_filters.
  rewrite !bool_decide_eq_false_2 by discriminate.
  rewrite bool_decide_eq_true_2 by reflexivity.
  rewrite !img_map_map.
  apply (img_map_ext_on valid_pixel); [exact Hv|].
  intros [b g r] (Hb & Hg & Hr); simpl in *.
  unfold px_map; simpl.
  now rewrite !denormalize_normalize, halve_channel.
Qed.

(** X2.  The tritanopia filter writes half of the green channel, rounded down,
    into the blue channel of every pixel and leaves green and red alone. *)
Theorem tritanopia_halves_green img :
  valid_image img ->
  apply_accessibility_filters img (Some "colorblind_tritanopia"%string) =
    img_map (fun p => Px (c1 p / 2) (c1 p) (c2 p)) img.
Proof.
  intros Hv. unfold apply_accessibility_filters.
  rewrite !bool_decide_eq_false_2 by discriminate.
  rewrite bool_decide_eq_true_2 by reflexivity.
  rewrite !img_map_map.
  apply (img_map_ext_on valid_pixel); [exact Hv|].
  intros [b g r] (Hb & Hg & Hr); simpl in *.
  unfold px_map; simpl.
  now rewrite !denormalize_normalize, halve_channel.
Qed.

(** X3.  A colour-blindness simulation applied to its own result changes nothing
    more: the channel it reads is one it does not write. *)
Theorem colorblind_filter_idempotent img kind :
  valid_image img -> In kind colorblind_kinds ->
  apply_accessibility_filters (apply_accessibility_filters img (Some kind)) (Some kind) =
  apply_accessibility_filters img (Some kind).
Proof.
  intros Hv Hk. unfold colorblind_kinds in Hk. cbn [In] in Hk.
  destruct Hk as [<- | [<- | [<- | []]]];
    unfold apply_accessibility_filters;
    rewrite ?bool_decide_eq_false_2 by discriminate;
    rewrite ?bool_decide_eq_true_2 by reflexivity;
    rewrite !img_map_map;
    (apply (img_map_ext_on valid_pixel); [exact Hv|]);
    intros [b g r] (Hb & Hg & Hr); simpl in *; unfold px_map; simpl;
    repeat rewrite denormalize_normalize by (assumption || apply denormalize_range);
    now rewrite ?halve_channel by assumption.
Qed.
End MoreFilters.

Lemma deuteranopia_halves_red_witness :
  apply_accessibility_filters (E := Reference.opencv)
    Reference.sample (Some "colorblind_deuteranopia"%string) =
  [[Px 0 127 255; Px 10 15 30]; [Px 128 64 128; Px 255 127 255]].
Proof.
  rewrite (deuteranopia_halves_red (E := Reference.opencv)).
  - reflexivity.
  - exact sample_valid.
Defined.

Lemma tritanopia_halves_green_witness :
  apply_accessibility_filters (E := Reference.opencv)
    Reference.sample (Some "colorblind_tritanopia"%string) =
  [[Px 0 1 255; Px 10 20 30]; [Px 64 128 128; Px 127 255 255]].
Proof.
  rewrite (tritanopia_halves_green (E := Reference.opencv)).
  - reflexivity.
  - exact sample_valid.
Defined.

Lemma colorblind_filter_idempotent_witness :
  let once := apply_accessibility_filters (E := Reference.opencv)
                Reference.sample (Some "colorblind_protanopia"%string) in
  apply_accessibility_filters (E := Reference.opencv) once
    (Some "colorblind_protanopia"%string) = once.
Proof.
  apply (colorblind_filter_idempotent (E := Reference.opencv)).
  - exact sample_valid.
  - now left.
Defined.


(** ** Dimensions *)

Lemma shape_map {A B} (f : A -> B) (a : list (list A)) : shape (map (map f) a) = shape a.
Proof.
  unfold shape. rewrite map_map. apply map_ext. intros row. apply length_map.
Qed.


(** [cv2.split] then [cv2.merge] on planes of equal dimensions gives each
    plane back. *)
Lemma planes_of_merge (l a b : plane Z) :
  shape a = shape l -> shape b = shape l ->
  plane_of c0 (merge l a b) = l /\
  plane_of c1 (merge l a b) = a /\
  plane_of c2 (merge l a b) = b.
Proof.
  unfold shape, merge, plane_of. revert a b.
  induction l as [|rl l IH]; intros [|ra a] [|rb b]; cbn; try discriminate; auto.
  intros [= Ha Hla] [= Hb Hlb].
  destruct (IH a b Hla Hlb) as (H0 & H1 & H2).
  assert (Hrow : map c0 (zip_with (fun x yz => Px x yz.1 yz.2) rl (zip ra rb)) = rl /\
                 map c1 (zip_with (fun x yz => Px x yz.1 yz.2) rl (zip ra rb)) = ra /\
                 map c2 (zip_with (fun x yz => Px x yz.1 yz.2) rl (zip ra rb)) = rb).
  { clear -Ha Hb. revert ra rb Ha Hb.
    induction rl as [|x rl IHr]; intros [|y ra] [|z rb]; cbn; try discriminate; auto.
    intros [= Ha] [= Hb]. destruct (IHr ra rb Ha Hb) as (R0 & R1 & R2).
    now rewrite R0, R1, R2. }
  destruct Hrow as (R0 & R1 & R2).
  now rewrite H0, H1, H2, R0, R1, R2.
Qed.

Section Dimensions.
Context {E : Externals}.




(** X4.  The high-contrast filter changes the lightness plane alone: the LAB
    image it converts back has the lightness that CLAHE returns and the two
    colour planes of the converted input. *)
Theorem high_contrast_changes_lightness_only img :
  clahe_keeps_shape ->
  let lab := img_map BGR2LAB img in
  exists lab',
    apply_accessibility_filters img (Some "high_contrast"%string) = img_map LAB2BGR lab' /\
    plane_of c0 lab' = CLAHE_apply (plane_of c0 lab) /\
    plane_of c1 lab' = plane_of c1 lab /\
    plane_of c2 lab' = plane_of c2 lab.
Proof.
  intros Hclahe lab.
  exists (merge (CLAHE_apply (plane_of c0 lab)) (plane_of c1 lab) (plane_of c2 lab)).
  split; [reflexivity|].
  apply planes_of_merge; rewrite Hclahe; unfold plane_of; now rewrite !shape_map.
Qed.

End Dimensions.

Lemma reference_clahe_keeps_shape : clahe_keeps_shape (E := Reference.opencv).
Proof. intros l. reflexivity. Qed.

Lemma high_contrast_changes_lightness_only_witness :
  exists lab',
    apply_accessibility_filters (E := Reference.opencv) Reference.sample
      (Some "high_contrast"%string) = img_map (LAB2BGR (Externals := Reference.opencv)) lab' /\
    plane_of c0 lab' = [[0; 10]; [128; 255]] /\
    plane_of c1 lab' = [[1; 20]; [128; 255]] /\
    plane_of c2 lab' = [[255; 30]; [128; 255]].
Proof.
  exact (high_contrast_changes_lightness_only (E := Reference.opencv) Reference.sample
           reference_clahe_keeps_shape).
Defined.



(** ** What the summary reads *)

Lemma delta_ext om pm adj adj' r :
  (forall k, In k summary_keys -> dict_get adj k = dict_get adj' k) ->
  delta om pm adj r = delta om pm adj' r.
Proof.
  intros H. destruct r; cbn [delta]; try reflexivity; apply H; cbn; auto.
Qed.

(** X6.  The summary depends on the dictionary of adjustments through the keys
    brightness, hue and exposure alone, each read with the default 0: a
    missing key reads as 0, and the contrast and saturation entries are never
    looked at. *)
Theorem summary_reads_three_keys om pm adj adj' :
  (forall k, In k summary_keys -> dict_get adj k = dict_get adj' k) ->
  generate_explainable_summary om pm adj = generate_explainable_summary om pm adj'.
Proof.
  intros H. unfold generate_explainable_summary. f_equal.
  rewrite !explanations_by_rule. unfold clauses_by_rule.
  assert (Hf : List.filter (fires om pm adj) rule_order =
               List.filter (fires om pm adj') rule_order).
  { apply List.filter_ext. intros r. unfold fires.
    now rewrite !(delta_ext om pm adj adj' _ H). }
  rewrite Hf. clear Hf.
  destruct (List.filter (fires om pm adj') rule_order) as [|r l]; [reflexivity|].
  apply map_ext. intros r'. unfold clause.
  now rewrite (delta_ext om pm adj adj' r' H).
Qed.

Lemma summary_reads_three_keys_witness :
  let m := Metrics.Make f64_0 f64_0 f64_0 f64_0 in
  generate_explainable_summary m m
    (<["hue" := F64.of_Z 10]> ∅)%string =
  generate_explainable_summary m m
    (adjustments_of f64_0 (F64.lit 12 10) (F64.lit 11 10) (F64.of_Z 10) f64_0).
Proof.
  apply summary_reads_three_keys.
  intros k [<- | [<- | [<- | []]]]; reflexivity.
Defined.

(** ** What a run writes, and when it raises *)

Section Outcomes.
Context {E : Externals}.

(** X7.  [process_image] writes no file but the output path: every other path,
    the input among them unless it is the output path itself, holds what it
    held before, whether the run returns, fails to decode or raises. *)
Theorem process_image_writes_output_only input output b c s h e flt auto w p :
  p <> output ->
  files (snd (process_image input output b c s h e flt auto w)) !! p = files w !! p.
Proof.
  intros Hp. destruct (files w !! input) as [img|] eqn:Hin.
  - pose proof (process_image_run input output img w b c s h e flt auto Hin) as H.
    destruct (auto_enhancement auto img (calculate_perceptual_metrics img) b c s)
      as [[b' c'] s'].
    rewrite H. destruct (exposure_outcome e) as [factor|x]; cbn [snd files].
    + now apply lookup_insert_ne.
    + reflexivity.
  - unfold process_image, mbind, M_bind, imread. now rewrite Hin.
Qed.



(** X9.  A filter kind that is not one of the four defined ones leaves the
    written image as the run without a filter writes it, and is named in the
    summary all the same, by the string that was passed. *)
Theorem unknown_kind_is_reported input output img w b c s h e kind auto :
  files w !! input = Some img ->
  kind <> EmptyString ->
  (forall k, In k defined_kinds -> kind <> k) ->
  let r := process_image input output b c s h e (Some kind) auto w in
  let r0 := process_image input output b c s h e None auto w in
  files (snd r) = files (snd r0) /\
  forall summary, fst r0 = Returned summary ->
    fst r = Returned (summary ++ bullet ++ "Applied " ++ kind ++ " accessibility filter")%string.
Proof.
  intros Hin Hne Hk. cbv zeta.
  pose proof (process_image_run input output img w b c s h e (Some kind) auto Hin) as H.
  pose proof (process_image_run input output img w b c s h e None auto Hin) as H0.
  destruct (auto_enhancement auto img (calculate_perceptual_metrics img) b c s)
    as [[b' c'] s'].
  rewrite H, H0. clear H H0.
  assert (Hid : forall x, filter_image (Some kind) x = x).
  { intros x. unfold filter_image. destruct (truthy (Some kind)); [|reflexivity].
    unfold apply_accessibility_filters.
    rewrite !bool_decide_eq_false_2; [reflexivity| | | |];
      intros [= ->]; eapply Hk; try reflexivity; cbn; auto 10. }
  assert (Hname : filter_names !! kind = None).
  { unfold filter_names.
    rewrite !lookup_insert_ne; [apply lookup_empty| | | |];
      intros Heq; symmetry in Heq; revert Heq; apply Hk; cbn; auto 10. }
  assert (Ht : truthy (Some kind) = true) by (destruct kind; [contradiction|reflexivity]).
  destruct (exposure_outcome e) as [factor|y]; cbn [fst snd files].
  - unfold output_image. rewrite Hid. split; [reflexivity|].
    intros summary [= <-]. unfold run_summary, output_image.
    rewrite ?Hid, Ht. cbn [default truthy filter_image]. unfold id. now rewrite Hname.
  - split; [reflexivity|discriminate].
Qed.

(** X10.  With brightness 0, contrast 1.0, exposure 0 and auto-enhance off, the
    conversion to [float32] and back loses nothing: the saturation and hue
    block and the filter work on the pixels of the input. *)
Theorem neutral_tonal_values_keep_pixels input output img w s h flt :
  valid_image img -> files w !! input = Some img ->
  files (snd (process_image input output f64_0 f64_1 s h f64_0 flt false w)) !! output =
  Some (filter_image flt (saturation_hue_image s h img)).
Proof.
  intros Hv Hin.
  pose proof (process_image_run input output img w f64_0 f64_1 s h f64_0 flt false Hin) as H.
  unfold auto_enhancement in H.
  change (exposure_outcome f64_0) with (Returned f64_1) in H.
  cbv beta iota zeta in H. rewrite H. cbn [snd files].
  rewrite lookup_insert_eq. unfold output_image.
  now rewrite tonal_image_identity.
Qed.
End Outcomes.

Lemma process_image_writes_output_only_witness :
  files (snd (Reference.run Reference.sample (F64.lit 2 10) (F64.lit 12 10)
                (F64.lit 11 10) (F64.of_Z 10) (F64.lit 1 10) None true))
    !! "in.jpg"%string = Some Reference.sample.
Proof.
  unfold Reference.run.
  rewrite (process_image_writes_output_only (E := Reference.opencv)).
  - reflexivity.
  - discriminate.
Defined.


Lemma unknown_kind_is_reported_witness :
  Reference.run Reference.sample f64_0 f64_1 f64_1 f64_0 f64_0 (Some "sepia"%string) false =
  (Returned (fallback_clause ++ bullet ++ "Applied sepia accessibility filter")%string,
   World (<["out.jpg"%string := Reference.sample]> {[ "in.jpg"%string := Reference.sample ]})
         [EvMetrics; EvFilter "sepia"; EvMetrics; EvImwrite "out.jpg"]).
Proof.
  pose proof (unknown_kind_is_reported (E := Reference.opencv) "in.jpg" "out.jpg"
                Reference.sample (Reference.world_with "in.jpg" Reference.sample)
                f64_0 f64_1 f64_1 f64_0 f64_0 "sepia" false eq_refl) as H.
  cbv zeta in H.
  destruct H as [_ H]; [discriminate| |].
  - intros k Hink <-. cbn in Hink.
    repeat (destruct Hink as [Hink|Hink]; [discriminate Hink|]). exact Hink.
  - unfold Reference.run.
    rewrite (surjective_pairing (process_image _ _ _ _ _ _ _ _ _ _)).
    rewrite (H fallback_clause) by now vm_compute.
    f_equal; now vm_compute.
Defined.

Lemma neutral_tonal_values_keep_pixels_witness :
  files (snd (Reference.run Reference.sample f64_0 f64_1 f64_1 f64_0 f64_0
                (Some "colorblind_tritanopia"%string) false)) !! "out.jpg"%string =
  Some [[Px 0 1 255; Px 10 20 30]; [Px 64 128 128; Px 127 255 255]].
Proof.
  unfold Reference.run.
  rewrite (neutral_tonal_values_keep_pixels (E := Reference.opencv)
             "in.jpg" "out.jpg" Reference.sample).
  - reflexivity.
  - exact sample_valid.
  - reflexivity.
Defined.


(** ** Whole numbers of half-degrees and of stops *)

Lemma forall_between (P : Z -> bool) (lo : Z) (n : nat) :
  forallb (fun k => P (lo + k)) (map Z.of_nat (seq 0 n)) = true ->
  forall z, lo <= z < lo + Z.of_nat n -> P z = true.
Proof.
  intros Hall z Hz.
  replace z with (lo + (z - lo)) by lia.
  apply (forall_range (fun k => P (lo + k)) n Hall). lia.
Qed.

(** The hue byte after a shift by a whole number [n], for every stored hue:
    checked on all 180 hues and all [n] from -360 to 360. *)
Lemma hue_shift_byte n h :
  -360 <= n <= 360 -> 0 <= h < 180 ->
  astype_uint8 (np_mod (F32.add (F32.of_Z h) (F32.of_f64 (F64.of_Z n))) (F32.of_Z 180)) =
  (h + n) mod 180.
Proof.
  intros Hn Hh. apply Z.eqb_eq.
  revert h Hh.
  apply (forall_range (fun h =>
    astype_uint8 (np_mod (F32.add (F32.of_Z h) (F32.of_f64 (F64.of_Z n))) (F32.of_Z 180))
      =? (h + n) mod 180) 180).
  revert n Hn.
  assert (H : forall z, -360 <= z < -360 + Z.of_nat 721 ->
    forallb (fun h =>
      astype_uint8 (np_mod (F32.add (F32.of_Z h) (F32.of_f64 (F64.of_Z z))) (F32.of_Z 180))
        =? (h + z) mod 180) (map Z.of_nat (seq 0 180)) = true).
  { apply (forall_between (fun z => forallb (fun h =>
      astype_uint8 (np_mod (F32.add (F32.of_Z h) (F32.of_f64 (F64.of_Z z))) (F32.of_Z 180))
        =? (h + z) mod 180) (map Z.of_nat (seq 0 180))) (-360) 721).
    now vm_compute. }
  intros n Hn. apply H. lia.
Qed.

Lemma whole_shift_not_zero n :
  -360 <= n <= 360 -> n <> 0 -> py_ne (F64.of_Z n) f64_0 = true.
Proof.
  intros Hn Hz.
  assert (H : (n =? 0) || py_ne (F64.of_Z n) f64_0 = true).
  { apply (forall_between (fun n => (n =? 0) || py_ne (F64.of_Z n) f64_0) (-360) 721);
      [now vm_compute|lia]. }
  apply orb_true_iff in H as [H|H]; [|exact H]. apply Z.eqb_eq in H. contradiction.
Qed.

Section WholeHue.
Context {E : Externals}.

Lemma shifted_pixel s n q :
  -360 <= n <= 360 -> n <> 0 -> hsv_pixel q ->
  px_map astype_uint8 (saturation_hue_pixel s (F64.of_Z n) (px_map F32.of_Z q)) =
  Px ((c0 q + n) mod 180)
     (astype_uint8 (np_clip f32_0 f32_255 (F32.mul (F32.of_Z (c1 q)) (F32.of_f64 s))))
     (c2 q).
Proof.
  intros Hn Hz (Hh & Hs & Hv).
  unfold saturation_hue_pixel, px_map. cbn [c0 c1 c2].
  rewrite whole_shift_not_zero by assumption.
  rewrite hue_shift_byte by assumption.
  now rewrite byte_through_float.
Qed.

(** X11.  With saturation 1.0 and a hue that is a whole number [n] other than 0,
    the saturation and hue block converts to HSV, moves every hue to
    [(h + n) mod 180], a negative [n] wrapping into 0..179 too, keeps
    saturation and value, and converts back. *)
Theorem hue_shift_is_modular img n w :
  hsv_contract -> valid_image img -> -360 <= n <= 360 -> n <> 0 ->
  fst (saturation_hue_adjustments img f64_1 (F64.of_Z n) w) =
  Returned (img_map (fun p => HSV2BGR (shift_hue n (BGR2HSV p))) img).
Proof.
  intros Hhsv Hv Hn Hz. rewrite saturation_hue_adjustments_run. cbn [fst]. f_equal.
  unfold saturation_hue_image, saturation_hue_runs.
  rewrite (whole_shift_not_zero n Hn Hz), orb_true_r.
  apply (img_map_ext_on valid_pixel); [exact Hv|].
  intros p Hp. rewrite shifted_pixel by auto.
  destruct (Hhsv p Hp) as (_ & Hs & _).
  now rewrite saturation_one.
Qed.

(** X12.  Two whole hues other than 0 that differ by a multiple of 180 make
    [process_image] write the same image, whatever the other settings. *)
Theorem hue_shifts_agree_modulo_180 input output img w b c s e flt auto n n' :
  hsv_contract -> files w !! input = Some img ->
  -360 <= n <= 360 -> -360 <= n' <= 360 -> n <> 0 -> n' <> 0 ->
  (n - n') mod 180 = 0 ->
  files (snd (process_image input output b c s (F64.of_Z n) e flt auto w)) !! output =
  files (snd (process_image input output b c s (F64.of_Z n') e flt auto w)) !! output.
Proof.
  intros Hhsv Hin Hn Hn' Hz Hz' Hmod.
  pose proof (process_image_run input output img w b c s (F64.of_Z n) e flt auto Hin) as H.
  pose proof (process_image_run input output img w b c s (F64.of_Z n') e flt auto Hin) as H'.
  destruct (auto_enhancement auto img (calculate_perceptual_metrics img) b c s)
    as [[b' c'] s'].
  rewrite H, H'. destruct (exposure_outcome e) as [factor|x]; [|reflexivity].
  cbn [snd files]. rewrite !lookup_insert_eq. f_equal.
  unfold output_image. f_equal.
  unfold saturation_hue_image, saturation_hue_runs.
  rewrite (whole_shift_not_zero n Hn Hz), (whole_shift_not_zero n' Hn' Hz'), !orb_true_r.
  apply (img_map_ext_on valid_pixel); [apply tonal_image_valid|].
  intros p Hp. rewrite !shifted_pixel by auto. do 2 f_equal.
  replace (c0 (BGR2HSV p) + n) with (c0 (BGR2HSV p) + n' + (n - n')) by lia.
  rewrite <- Zplus_mod_idemp_r, Hmod. f_equal. lia.
Qed.
End WholeHue.

(** Pure red moved by -70 half-degrees lands on hue 110, and pure blue on
    hue 50. *)
Lemma hue_shift_is_modular_witness :
  fst (saturation_hue_adjustments (E := Reference.opencv)
         [[Px 0 0 255; Px 255 0 0]] f64_1 (F64.of_Z (-70)) (World ∅ [])) =
  Returned [[Px 255 85 0; Px 0 255 85]].
Proof.
  rewrite (hue_shift_is_modular (E := Reference.opencv)).
  - reflexivity.
  - exact reference_hsv_contract.
  - repeat constructor; unfold valid_channel; simpl; lia.
  - lia.
  - discriminate.
Defined.

(** Hue 190 and hue -170 both act as hue 10. *)
Lemma hue_shifts_agree_modulo_180_witness :
  files (snd (Reference.run Reference.sample f64_0 f64_1 (F64.lit 11 10)
                (F64.of_Z 190) f64_0 None false)) !! "out.jpg"%string =
  files (snd (Reference.run Reference.sample f64_0 f64_1 (F64.lit 11 10)
                (F64.of_Z (-170)) f64_0 None false)) !! "out.jpg"%string.
Proof.
  apply (hue_shifts_agree_modulo_180 (E := Reference.opencv) "in.jpg" "out.jpg"
           Reference.sample (Reference.world_with "in.jpg" Reference.sample)).
  - exact reference_hsv_contract.
  - reflexivity.
  - lia.
  - lia.
  - discriminate.
  - discriminate.
  - reflexivity.
Defined.


(** *** Stops *)

Lemma whole_power_checked n : -1100 <= n <= 1023 -> whole_power_check n = true.
Proof.
  intros Hn. apply (forall_between whole_power_check (-1100) 2124); [now vm_compute|lia].
Qed.

Lemma exposure_stops_byte n c :
  -64 <= n <= 64 -> valid_channel c ->
  denormalize (exposure_channel (F64.of_Z n) (whole_power n) (normalize c)) = stops n c.
Proof.
  intros Hn Hc. apply Z.eqb_eq. revert c Hc.
  assert (H : forall c, 0 <= c < Z.of_nat 256 ->
            (denormalize (exposure_channel (F64.of_Z n) (whole_power n) (normalize c))
               =? stops n c) = true).
  { apply (forall_range (fun c =>
      denormalize (exposure_channel (F64.of_Z n) (whole_power n) (normalize c))
        =? stops n c) 256).
    revert n Hn.
    assert (H : forall z, -64 <= z < -64 + Z.of_nat 129 ->
      forallb (fun c =>
        denormalize (exposure_channel (F64.of_Z z) (whole_power z) (normalize c))
          =? stops z c) (map Z.of_nat (seq 0 256)) = true).
    { apply (forall_between (fun z => forallb (fun c =>
        denormalize (exposure_channel (F64.of_Z z) (whole_power z) (normalize c))
          =? stops z c) (map Z.of_nat (seq 0 256))) (-64) 129).
      now vm_compute. }
    intros n Hn. apply H. lia. }
  intros c Hc. apply H. unfold valid_channel in Hc. lia.
Qed.

Section Stops.
Context {E : Externals}.

Lemma whole_exposure_outcome n :
  -1100 <= n <= 1023 -> exposure_outcome (F64.of_Z n) = Returned (whole_power n).
Proof.
  intros Hn. pose proof (whole_power_checked n Hn) as H.
  unfold whole_power_check in H. unfold whole_power.
  destruct (n =? 0) eqn:Hz.
  - apply Z.eqb_eq in Hz. subst n. reflexivity.
  - cbn [orb] in H. unfold exposure_outcome, pow2_outcome, c_pow2.
    destruct (F64.of_Z n) as [| | |sg m ex] eqn:He; try discriminate.
    repeat (apply andb_prop in H as [H ?]).
    rewrite H.
    match goal with Hle : negb _ = true |- _ => apply negb_true_iff in Hle; rewrite Hle end.
    match goal with Hi : is_integer _ = true |- _ => rewrite Hi end.
    match goal with Ht : (trunc _ =? n) = true |- _ => apply Z.eqb_eq in Ht; rewrite Ht end.
    destruct (SFldexp _ _ _ _); try reflexivity. discriminate.
Qed.


(** X14.  With nothing else adjusted, an exposure of [n] stops, [n] a whole number
    from -64 to 64, multiplies every channel by [2^n] exactly: the byte
    written is [c * 2^n] rounded down, and 255 where that is more. *)
Theorem exposure_stops_are_exact input output img w n :
  valid_image img -> files w !! input = Some img -> -64 <= n <= 64 ->
  files (snd (process_image input output f64_0 f64_1 f64_1 f64_0 (F64.of_Z n) None false w))
    !! output = Some (img_map (px_map (stops n)) img).
Proof.
  intros Hv Hin Hn.
  pose proof (process_image_run input output img w f64_0 f64_1 f64_1 f64_0 (F64.of_Z n)
                None false Hin) as H.
  unfold auto_enhancement in H. cbv beta iota in H.
  rewrite H, whole_exposure_outcome by lia. cbv zeta. cbn [snd files].
  rewrite lookup_insert_eq. f_equal.
  unfold output_image, filter_image, saturation_hue_image, tonal_image.
  change (saturation_hue_runs f64_1 f64_0) with false. cbn [truthy].
  apply (img_map_ext_on valid_pixel); [exact Hv|].
  intros [x0 x1 x2] (H0 & H1 & H2). unfold px_map. cbn [c0 c1 c2] in *.
  change (tonal_channel f64_0 f64_1 (F64.of_Z n) (whole_power n))
    with (exposure_channel (F64.of_Z n) (whole_power n)).
  now rewrite !exposure_stops_byte.
Qed.
End Stops.


(** One stop up doubles, two stops down quarter. *)
Lemma exposure_stops_are_exact_witness :
  files (snd (Reference.run Reference.sample f64_0 f64_1 f64_1 f64_0 (F64.of_Z 1) None false))
    !! "out.jpg"%string = Some [[Px 0 2 255; Px 20 40 60]; [Px 255 255 255; Px 255 255 255]] /\
  files (snd (Reference.run Reference.sample f64_0 f64_1 f64_1 f64_0 (F64.of_Z (-2)) None false))
    !! "out.jpg"%string = Some [[Px 0 0 63; Px 2 5 7]; [Px 32 32 32; Px 63 63 63]].
Proof.
  unfold Reference.run. split.
  - rewrite (exposure_stops_are_exact (E := Reference.opencv) "in.jpg" "out.jpg" Reference.sample).
    + reflexivity.
    + exact sample_valid.
    + reflexivity.
    + lia.
  - rewrite (exposure_stops_are_exact (E := Reference.opencv) "in.jpg" "out.jpg" Reference.sample).
    + reflexivity.
    + exact sample_valid.
    + reflexivity.
    + lia.
Defined.


(** ** Order on floats *)

Lemma SFcompare_swap x y : SFcompare y x = option_map CompOpp (SFcompare x y).
Proof.
  destruct x as [[]|[]| |[] m e], y as [[]|[]| |[] m' e']; try reflexivity;
    cbn [SFcompare option_map]; rewrite (Z.compare_antisym e e');
    destruct (e ?= e'); cbn [CompOpp]; try reflexivity;
    rewrite (Pos.compare_cont_antisym m m' Eq); cbn [CompOpp];
    now rewrite ?CompOpp_involutive.
Qed.

Lemma SFltb_asym x y : SFltb x y = true -> SFltb y x = false.
Proof.
  unfold SFltb. rewrite (SFcompare_swap x y).
  destruct (SFcompare x y) as [[]|]; cbn; congruence.
Qed.

Lemma SFltb_irrefl x : SFltb x x = false.
Proof.
  unfold SFltb. pose proof (SFcompare_swap x x) as H.
  destruct (SFcompare x x) as [[]|]; cbn in *; congruence.
Qed.

Lemma not_ltb_leb x y :
  is_nan x = false -> is_nan y = false -> SFltb x y = false -> SFleb y x = true.
Proof.
  unfold SFltb, SFleb. rewrite (SFcompare_swap x y).
  destruct x as [[]|[]| |[] m e], y as [[]|[]| |[] m' e']; try discriminate;
    intros _ _; destruct (SFcompare _ _) as [[]|] eqn:Hc; cbn; try congruence;
    cbn in Hc; discriminate.
Qed.

Lemma py_max_not_below a b : py_lt (py_max a b) a = false.
Proof.
  unfold py_max, py_gt, py_lt.
  destruct (SFltb a b) eqn:Hab; [now apply SFltb_asym|apply SFltb_irrefl].
Qed.

Lemma py_max_reaches a b :
  is_nan a = false -> is_nan b = false -> SFleb b (py_max a b) = true.
Proof.
  intros Ha Hb. unfold py_max, py_gt.
  destruct (SFltb a b) eqn:Hab.
  - apply not_ltb_leb; auto. apply SFltb_irrefl.
  - now apply not_ltb_leb.
Qed.

Section AutoEnhanceBounds.
Context {E : Externals}.

(** X15.  Auto-enhancement never lowers the contrast or the saturation that was
    requested; under its thresholds it brings a contrast that is a number to
    at least 1.2 and a saturation that is a number to at least 1.1. *)
Theorem auto_enhance_never_lowers auto img b c s :
  let om := calculate_perceptual_metrics img in
  let '(_, c', s') := auto_enhancement auto img om b c s in
  py_lt c' c = false /\ py_lt s' s = false /\
  (auto = true -> is_nan c = false ->
   py_lt (Metrics.contrast om) (F64.of_Z 30) = true ->
   SFleb (F64.lit 12 10) c' = true) /\
  (auto = true -> is_nan s = false ->
   py_lt (Metrics.saturation om) (F64.of_Z 100) = true ->
   SFleb (F64.lit 11 10) s' = true).
Proof.
  intros om. unfold auto_enhancement. destruct auto.
  - cbv zeta. repeat split.
    + destruct (py_lt (Metrics.contrast om) _); [apply py_max_not_below|apply SFltb_irrefl].
    + destruct (py_lt (Metrics.saturation om) _); [apply py_max_not_below|apply SFltb_irrefl].
    + intros _ Hc ->. now apply py_max_reaches.
    + intros _ Hs ->. now apply py_max_reaches.
  - repeat split; try apply SFltb_irrefl; discriminate.
Qed.
End AutoEnhanceBounds.


(** ** The numbers in the summary *)

Lemma fired_clause_listed om pm adj r :
  fires om pm adj r = true -> In (clause om pm adj r) (explanations om pm adj).
Proof.
  intros Hr. rewrite explanations_by_rule. unfold clauses_by_rule.
  assert (Hin : In r (List.filter (fires om pm adj) rule_order)).
  { apply List.filter_In. split; [|exact Hr]. destruct r; cbn; tauto. }
  destruct (List.filter (fires om pm adj) rule_order) as [|r0 l]; [destruct Hin|].
  now apply in_map.
Qed.

Lemma tenths_checked k : 1 <= k <= 1000 -> tenths_check k = true.
Proof.
  intros Hk. apply (forall_between tenths_check 1 1000); [now vm_compute|lia].
Qed.

Lemma whole_checked n : -360 <= n <= 360 -> whole_check n = true.
Proof.
  intros Hn. apply (forall_between whole_check (-360) 721); [now vm_compute|lia].
Qed.

(** X16.  The manual clauses print the numbers as they were typed: a brightness
    or an exposure of [k] tenths, up to 100.0 either way, reads with exactly
    that decimal, its sign turned into the verb; a hue of [n] whole degrees
    reads as [n] with its sign. *)
Theorem manual_values_are_echoed om pm k n :
  1 <= k <= 1000 -> -360 <= n <= 360 -> n <> 0 ->
  let up := F64.lit k 10 in
  let down := SFopp (F64.lit k 10) in
  forall c s,
  In ("Brightened the image by " ++ tenths k ++ " levels")%string
     (explanations om pm (adjustments_of up c s (F64.of_Z n) up)) /\
  In ("Increased exposure by " ++ tenths k ++ " stops")%string
     (explanations om pm (adjustments_of up c s (F64.of_Z n) up)) /\
  In ("Darkened the image by " ++ tenths k ++ " levels")%string
     (explanations om pm (adjustments_of down c s (F64.of_Z n) down)) /\
  In ("Decreased exposure by " ++ tenths k ++ " stops")%string
     (explanations om pm (adjustments_of down c s (F64.of_Z n) down)) /\
  In ("Shifted color hue by " ++ whole n ++ " degrees")%string
     (explanations om pm (adjustments_of up c s (F64.of_Z n) up)).
Proof.
  intros Hk Hn Hz up down c s. subst up down.
  pose proof (tenths_checked k Hk) as Ht. unfold tenths_check in Ht. cbv zeta in Ht.
  repeat (apply andb_prop in Ht as [Ht ?]).
  repeat match goal with
         | H : String.eqb _ _ = true |- _ => apply String.eqb_eq in H
         | H : negb _ = true |- _ => apply negb_true_iff in H
         end.
  pose proof (whole_checked n Hn) as Hw. unfold whole_check in Hw.
  apply orb_true_iff in Hw as [Hw|Hw]; [apply Z.eqb_eq in Hw; contradiction|].
  apply String.eqb_eq in Hw.
  pose proof (whole_shift_not_zero n Hn Hz) as Hne.
  repeat split.
  - replace ("Brightened the image by " ++ tenths k ++ " levels")%string
      with (clause om pm (adjustments_of (F64.lit k 10) c s (F64.of_Z n) (F64.lit k 10)) Brightness).
    + apply fired_clause_listed. cbn [fires delta]. now rewrite get_brightness.
    + cbn [clause delta]. rewrite get_brightness. cbv zeta.
      now match goal with H : py_gt (F64.lit k 10) _ = true |- _ => rewrite H end;
      match goal with H : format_f 1 (F64.lit k 10) = _ |- _ => rewrite H end.
  - replace ("Increased exposure by " ++ tenths k ++ " stops")%string
      with (clause om pm (adjustments_of (F64.lit k 10) c s (F64.of_Z n) (F64.lit k 10)) Exposure).
    + apply fired_clause_listed. cbn [fires delta]. now rewrite get_exposure.
    + cbn [clause delta]. rewrite get_exposure. cbv zeta.
      now match goal with H : py_gt (F64.lit k 10) _ = true |- _ => rewrite H end;
      match goal with H : format_f 1 (F64.lit k 10) = _ |- _ => rewrite H end.
  - replace ("Darkened the image by " ++ tenths k ++ " levels")%string
      with (clause om pm (adjustments_of (SFopp (F64.lit k 10)) c s (F64.of_Z n) (SFopp (F64.lit k 10))) Brightness).
    + apply fired_clause_listed. cbn [fires delta]. now rewrite get_brightness.
    + cbn [clause delta]. rewrite get_brightness. cbv zeta.
      now match goal with H : py_gt (SFopp _) _ = false |- _ => rewrite H end;
      match goal with H : format_f 1 (SFabs _) = _ |- _ => rewrite H end.
  - replace ("Decreased exposure by " ++ tenths k ++ " stops")%string
      with (clause om pm (adjustments_of (SFopp (F64.lit k 10)) c s (F64.of_Z n) (SFopp (F64.lit k 10))) Exposure).
    + apply fired_clause_listed. cbn [fires delta]. now rewrite get_exposure.
    + cbn [clause delta]. rewrite get_exposure. cbv zeta.
      now match goal with H : py_gt (SFopp _) _ = false |- _ => rewrite H end;
      match goal with H : format_f 1 (SFabs _) = _ |- _ => rewrite H end.
  - replace ("Shifted color hue by " ++ whole n ++ " degrees")%string
      with (clause om pm (adjustments_of (F64.lit k 10) c s (F64.of_Z n) (F64.lit k 10)) Hue).
    + apply fired_clause_listed. cbn [fires delta]. now rewrite get_hue.
    + cbn [clause delta]. rewrite get_hue. cbv zeta. now rewrite Hw.
Qed.

(** Brightness 0.2 with hue 10 reads as typed. *)
Lemma manual_values_are_echoed_witness :
  In ("Brightened the image by " ++ tenths 2 ++ " levels")%string
     (explanations (Metrics.Make f64_0 f64_0 f64_0 f64_0) (Metrics.Make f64_0 f64_0 f64_0 f64_0)
        (adjustments_of (F64.lit 2 10) f64_1 f64_1 (F64.of_Z 10) (F64.lit 2 10))) /\
  tenths 2 = "0.2"%string /\ whole 10 = "10"%string.
Proof.
  assert (H1 : 1 <= 2 <= 1000) by lia.
  assert (H2 : -360 <= 10 <= 360) by lia.
  assert (H3 : 10 <> 0) by discriminate.
  split; [|split; reflexivity].
  exact (proj1 (manual_values_are_echoed (Metrics.Make f64_0 f64_0 f64_0 f64_0)
                  (Metrics.Make f64_0 f64_0 f64_0 f64_0) 2 10 H1 H2 H3 f64_1 f64_1)).
Defined.


(** ** The endpoints *)

Lemma prefix_slash_app a b :
  a <> EmptyString -> String.prefix "/" (a ++ b) = String.prefix "/" a.
Proof.
  destruct a as [|ch a]; [contradiction|]. intros _.
  change (String.prefix "/" (String ch a ++ b))
    with (if ascii_dec "/" ch then String.prefix "" (a ++ b) else false).
  change (String.prefix "/" (String ch a))
    with (if ascii_dec "/" ch then String.prefix "" a else false).
  destruct (ascii_dec "/" ch); [|reflexivity].
  destruct (a ++ b)%string; destruct a; reflexivity.
Qed.

Lemma prefix_app a b : String.prefix a (a ++ b) = true.
Proof.
  induction a as [|ch a IH].
  - now destruct b.
  - change (String.prefix (String ch a) (String ch a ++ b))
      with (if ascii_dec ch ch then String.prefix a (a ++ b) else false).
    now destruct (ascii_dec ch ch).
Qed.

Lemma output_path_in_processed file_id :
  String.prefix "/" file_id = false ->
  path_join OUTPUT_DIR (file_id ++ "_processed.jpg") =
  ("processed/" ++ file_id ++ "_processed.jpg")%string.
Proof.
  intros Hid. unfold path_join.
  destruct file_id as [|ch rest].
  - reflexivity.
  - rewrite prefix_slash_app by discriminate. now rewrite Hid.
Qed.

Section EndpointProperties.
Context {E : Externals}.

(** X17.  After [POST /process] has answered for an upload that decodes, the
    file behind the answer is there: [GET /download/{file_id}] streams the
    image that was written, and so does the catch-all route on the path of
    the returned URL. *)
Theorem processed_image_is_served file_id filename img b c s h e flt auto w resp w'
    path_exists :
  has_slash filename = false -> String.prefix "/" file_id = false ->
  process_image_endpoint file_id filename (Some img) b c s h e flt auto w
    = (Returned resp, w') ->
  holds_files path_exists w' ->
  let output_path := ("processed/" ++ file_id ++ "_processed.jpg")%string in
  exists summary out,
    resp = JSON [("processed_url", "http://localhost:8000/" ++ output_path);
                 ("summary", summary); ("file_id", file_id)]%string /\
    files w' !! output_path = Some out /\
    download_image path_exists file_id =
      FileResponse output_path (Some "image/jpeg"%string)
                   (Some ("enhanced_image_" ++ file_id ++ ".jpg")%string) /\
    get_file path_exists output_path = FileResponse output_path None None.
Proof.
  intros _ Hid Hrun Hex output_path.
  unfold process_image_endpoint, mbind, M_bind, save_upload in Hrun.
  rewrite (output_path_in_processed file_id Hid) in Hrun. fold output_path in Hrun.
  set (input_path := path_join UPLOAD_DIR (file_id ++ "_" ++ filename)) in *.
  set (w1 := World (<[input_path := img]> (files w)) (trace w)) in *.
  assert (Hin : files w1 !! input_path = Some img) by apply lookup_insert_eq.
  pose proof (process_image_run input_path output_path img w1
                (default f64_0 b) (default f64_1 c) (default f64_1 s)
                (default f64_0 h) (default f64_0 e) flt (default false auto) Hin) as H.
  destruct (auto_enhancement _ img _ _ _ _) as [[b' c'] s'].
  rewrite H in Hrun. clear H.
  destruct (exposure_outcome _) as [factor|x]; [|discriminate].
  cbv zeta in Hrun. unfold mret, M_ret in Hrun. injection Hrun as <- <-.
  eexists _, _. split; [reflexivity|]. cbn [files].
  assert (Hout : path_exists output_path = true).
  { apply Hex. cbn [files]. rewrite lookup_insert_eq. eauto. }
  split; [apply lookup_insert_eq|]. split.
  - unfold download_image. rewrite (output_path_in_processed file_id Hid).
    fold output_path. now rewrite Hout.
  - unfold get_file.
    unfold output_path at 1 2. rewrite prefix_app.
    now rewrite orb_true_r, Hout.
Qed.

(** X18.  An upload that does not decode is answered like one that does, with the
    same three fields: the summary is the error text, the URL names a file
    that was never written, and nothing but the upload itself has changed on
    the disk.  [GET /download/{file_id}] then finds no file. *)
Theorem undecodable_upload_is_answered file_id filename b c s h e flt auto w path_exists :
  has_slash filename = false ->
  let input_path := path_join UPLOAD_DIR (file_id ++ "_" ++ filename) in
  let output_path := path_join OUTPUT_DIR (file_id ++ "_processed.jpg") in
  process_image_endpoint file_id filename None b c s h e flt auto w =
    (Returned (JSON [("processed_url", "http://localhost:8000/" ++ output_path);
                     ("summary", "Error: Could not load image");
                     ("file_id", file_id)]%string),
     World (delete input_path (files w)) (trace w)) /\
  (path_exists output_path = false ->
   download_image path_exists file_id = JSON [("error", "File not found")]%string).
Proof.
  intros _ input_path output_path. split.
  - set (w1 := World (delete input_path (files w)) (trace w)).
    assert (Hp : forall b c s h e auto,
               process_image input_path output_path b c s h e flt auto w1 =
               (Returned "Error: Could not load image"%string, w1)).
    { intros. unfold process_image, mbind, M_bind, imread. cbn [files w1].
      now rewrite lookup_delete_eq. }
    unfold process_image_endpoint, mbind, M_bind, save_upload.
    fold input_path. fold output_path. fold w1. now rewrite Hp.
  - intros Hout. unfold download_image. fold output_path. now rewrite Hout.
Qed.

End EndpointProperties.

Lemma processed_image_is_served_witness :
  exists summary out,
    fst (process_image_endpoint (E := Reference.opencv) "ab12" "cat.jpg"
           (Some Reference.sample) (Some (F64.lit 2 10)) None None (Some (F64.of_Z 10)) None
           None None (World ∅ [])) =
      Returned (JSON [("processed_url", "http://localhost:8000/processed/ab12_processed.jpg");
                      ("summary", summary); ("file_id", "ab12")]%string) /\
    files (snd (process_image_endpoint (E := Reference.opencv) "ab12" "cat.jpg"
           (Some Reference.sample) (Some (F64.lit 2 10)) None None (Some (F64.of_Z 10)) None
           None None (World ∅ []))) !! "processed/ab12_processed.jpg"%string = Some out /\
    download_image (fun _ => true) "ab12" =
      FileResponse "processed/ab12_processed.jpg" (Some "image/jpeg"%string)
                   (Some "enhanced_image_ab12.jpg"%string) /\
    get_file (fun _ => true) "processed/ab12_processed.jpg" =
      FileResponse "processed/ab12_processed.jpg" None None.
Proof.
  destruct (process_image_endpoint (E := Reference.opencv) "ab12" "cat.jpg"
              (Some Reference.sample) (Some (F64.lit 2 10)) None None (Some (F64.of_Z 10)) None
              None None (World ∅ [])) as [[resp|x] w'] eqn:Hrun.
  - destruct (processed_image_is_served (E := Reference.opencv) "ab12" "cat.jpg"
                Reference.sample (Some (F64.lit 2 10)) None None (Some (F64.of_Z 10)) None
                None None (World ∅ []) resp w' (fun _ => true) eq_refl eq_refl Hrun)
      as (summary & out & -> & Hout & Hd & Hg).
    + intros p _. reflexivity.
    + exists summary, out. cbn [fst snd]. auto.
  - exfalso. vm_compute in Hrun. discriminate Hrun.
Defined.

Lemma undecodable_upload_is_answered_witness :
  process_image_endpoint (E := Reference.opencv) "ab12" "notes.txt" None
    None None None None None None None (World ∅ []) =
  (Returned (JSON [("processed_url", "http://localhost:8000/processed/ab12_processed.jpg");
                   ("summary", "Error: Could not load image");
                   ("file_id", "ab12")]%string),
   World (delete "uploads/ab12_notes.txt"%string ∅) []).
Proof.
  exact (proj1 (undecodable_upload_is_answered (E := Reference.opencv) "ab12" "notes.txt"
                  None None None None None None None (World ∅ []) (fun _ => false) eq_refl)).
Defined.

